(** * exelixi: the generational evolutionary engine of [src/ga.py]

    A shallow embedding of the two classes of [ga.py], [Individual] and
    [Population], and the properties of the engine that follow from the code.

    Modelling conventions.
    - Python integers are [Z].
    - Python floats are modelled by the exact rationals they approximate
      ([Qc], canonical rationals, so that [=] is numeric equality): the
      development is about the arithmetic the code writes down, not about
      binary rounding.  The engine is stated over this arithmetic, where
      every integer has a float; [Individual_calc_fitness] is
      [calc_fitness] with the conversion of an integer to a double written
      out, which raises [OverflowError] beyond the range of a double.
    - A feature list belongs to one object: [generate_feature_set], [sorted]
      and slices build new lists, and a list handed to
      [Individual.populate] from outside is handed to that object only.
    - [Individual] instances are objects: they live in a heap and are passed
      around by reference, so that a write through [self] is seen by every
      holder of the reference (the exact store, the lists built from it).
    - Exceptions are results: every method is a computation in a state and
      exception monad over the [World].
    - The random module is a deterministic reader of an entropy tape. *)

From Stdlib Require Import ZArith QArith Qcanon Qround Qabs Lia Lqa Ascii.
From stdpp Require Import base option list gmap strings sorting numbers pretty.

Local Open Scope Z_scope.

(** ** Exceptions and results *)

Inductive exn : Type :=
  | TypeError
  | ValueError
  | UnboundLocalError
  | ZeroDivisionError
  | OverflowError
  | NoSuchObject.   (* a reference without an object: never in Python, kept
                       so that heap lookups are total in the model *)

Inductive result (A : Type) : Type :=
  | Ok (a : A)
  | Raise (e : exn).
Arguments Ok {A} a.
Arguments Raise {A} e.

(** ** The libraries the module imports *)

(** Modelled from the spec: the approximate membership filter of module
    [bloomfilter], which is not part of the sources.  It is "a space-bounded,
    probabilistic approximate-membership structure over fingerprints" that
    "must never produce false negatives" and "may produce false positives".
    [bf_new] is [BloomFilter(num_bytes=125, num_probes=14, iterable=[])],
    [bf_contains k b] is [k in b] and [bf_update ks b] is [b.update(ks)]. *)
Class BloomFilter : Type := {
  bf_state : Type;
  bf_new : bf_state;
  bf_contains : string → bf_state → bool;
  bf_update : list string → bf_state → bf_state;
  bf_update_contains : ∀ ks b k,
    k ∈ ks → bf_contains k (bf_update ks b) = true;
  bf_update_mono : ∀ ks b k,
    bf_contains k b = true → bf_contains k (bf_update ks b) = true
}.

(** [hashlib.sha224]: [sha224_hexdigest s] is the hexadecimal digest of the
    hash object fed with [s].  Nothing is assumed about it but that it is a
    function. *)
Class Sha224 : Type := {
  sha224_hexdigest : string → string
}.

(** ** Python built-ins *)

(** [sorted] on a list of integers. *)
Definition sorted (l : list Z) : list Z := merge_sort Z.le l.

(** [sum] on a list of integers: a left fold from [0]. *)
Definition sum (l : list Z) : Z := fold_left Z.add l 0.

(** [float(n)]. *)
Definition float (n : Z) : Qc := Qc_of_Z n.

(** The least integer that has no double: [2 ** 1024 - 2 ** 970], halfway
    between the largest double and [2 ** 1024].  Python converts every
    integer of smaller magnitude to a float and raises [OverflowError] on
    the others. *)
Definition float_limit : Z := 2 ^ 1024 - 2 ^ 970.

(** [round(x, ndigits)] of Python 2 on a float: the multiple of
    [10 ** -ndigits] nearest to [x], halves away from zero. *)
Definition round_half_away (q : Qc) : Z :=
  if Qle_bool 0 q then Qfloor (q + Q2Qc (1 # 2))%Qc
  else - Qfloor (- q + Q2Qc (1 # 2))%Qc.

Definition pow10 (n : Z) : Qc := Q2Qc (Qpower (10 # 1) n).

Definition round (x : Qc) (ndigits : Z) : Qc :=
  (float (round_half_away (x * pow10 ndigits)) / pow10 ndigits)%Qc.

(** [json.dumps] of a tuple of integers: ["[1, 2, 3]"]. *)
Fixpoint join (sep : string) (l : list string) : string :=
  match l with
  | [] => ""
  | [s] => s
  | s :: l' => s +:+ sep +:+ join sep l'
  end.

Definition dumps (t : list Z) : string :=
  "[" +:+ join ", " (pretty <$> t) +:+ "]".

(** Comparisons of floats as booleans. *)
Definition Qc_geb (x y : Qc) : bool := Qle_bool y x.
Definition Qc_leb (x y : Qc) : bool := Qle_bool x y.
Definition Qc_gtb (x y : Qc) : bool := negb (Qle_bool x y).

(** ** Class [Individual]: data *)

Definition loc : Type := positive.

(** The instance variables set by [__init__]; [None] is Python's [None]. *)
Record Individual : Type := mkIndividual {
  gen : option Z;
  _feature_set : option (list Z);
  key : option string;
  fitness : option Qc
}.

(** Feature set parameters (class attributes). *)
Definition Individual_target : Z := 231.
Definition Individual_length : Z := 5.
Definition Individual_min : Z := 0.
Definition Individual_max : Z := 100.

Definition set_gen (g : option Z) (o : Individual) : Individual :=
  mkIndividual g (_feature_set o) (key o) (fitness o).
Definition set_feature_set (fs : option (list Z)) (o : Individual) : Individual :=
  mkIndividual (gen o) fs (key o) (fitness o).
Definition set_key (k : option string) (o : Individual) : Individual :=
  mkIndividual (gen o) (_feature_set o) k (fitness o).
Definition set_fitness (f : option Qc) (o : Individual) : Individual :=
  mkIndividual (gen o) (_feature_set o) (key o) f.

(** The value [calc_fitness] stores: [1.0 - abs(sum(fs) - target) / float(target)]. *)
Definition fitness_of (fs : list Z) : Qc :=
  (1 - float (Z.abs (sum fs - Individual_target)) / float Individual_target)%Qc.

Section Engine.
Context `{BF : BloomFilter} `{SHA : Sha224}.

(** [get_json_feature_set] and [get_unique_key] on a bound feature set. *)
Definition json_feature_set (fs : list Z) : string := dumps fs.
Definition unique_key (fs : list Z) : string := sha224_hexdigest (json_feature_set fs).

(** ** Class [Population]: data *)

Record Population : Type := mkPopulation {
  prefix : string;
  n_pop : Z;
  _term_limit : Qc;
  _hist_granularity : Z;
  _uniq_dht : gmap string loc;
  _bf : bf_state
}.

Definition set_uniq_dht (d : gmap string loc) (p : Population) : Population :=
  mkPopulation (prefix p) (n_pop p) (_term_limit p) (_hist_granularity p) d (_bf p).
Definition set_bf (b : bf_state) (p : Population) : Population :=
  mkPopulation (prefix p) (n_pop p) (_term_limit p) (_hist_granularity p) (_uniq_dht p) b.

(** [Population.__init__] with its default arguments as parameters. *)
Definition Population_init (prefix : string) (n_pop : Z) (term_limit : Qc)
    (hist_granularity : Z) : Population :=
  mkPopulation prefix n_pop term_limit hist_granularity ∅ bf_new.

(** ** The world *)

(** A progress line of [test_termination]: the generation, the error and the
    histogram entries with a positive count. *)
Definition progress_line : Type := (Z * Qc * list (Qc * Z))%type.

Record World : Type := mkWorld {
  population : Population;           (* the Population instance *)
  heap : gmap loc Individual;        (* the Individual instances *)
  entropy : nat → nat;               (* what the random module will draw *)
  cursor : nat;                      (* how much of it was drawn *)
  stdout : list progress_line        (* what was printed, latest first *)
}.

Definition set_population (p : Population) (w : World) : World :=
  mkWorld p (heap w) (entropy w) (cursor w) (stdout w).
Definition set_heap (h : gmap loc Individual) (w : World) : World :=
  mkWorld (population w) h (entropy w) (cursor w) (stdout w).
Definition set_cursor (c : nat) (w : World) : World :=
  mkWorld (population w) (heap w) (entropy w) c (stdout w).
Definition set_stdout (s : list progress_line) (w : World) : World :=
  mkWorld (population w) (heap w) (entropy w) (cursor w) s.

(** ** The monad *)

Definition M (A : Type) : Type := World → result (A * World).

Definition ret {A} (a : A) : M A := λ w, Ok (a, w).
Definition raise {A} (e : exn) : M A := λ _, Raise e.
Definition bind {A B} (m : M A) (k : A → M B) : M B :=
  λ w, match m w with
       | Ok (a, w') => k a w'
       | Raise e => Raise e
       end.

Notation "'let!' x ':=' c1 'in' c2" := (bind c1 (λ x, c2))
  (at level 10, x binder, c1 at level 100, c2 at level 200).

Definition get_pop : M Population := λ w, Ok (population w, w).
Definition put_pop (p : Population) : M unit := λ w, Ok (tt, set_population p w).
Definition deref (l : loc) : M Individual :=
  λ w, match heap w !! l with
       | Some o => Ok (o, w)
       | None => Raise NoSuchObject
       end.
Definition store (l : loc) (o : Individual) : M unit :=
  λ w, Ok (tt, set_heap (<[l := o]> (heap w)) w).
Definition not_none {A} (x : option A) : M A :=
  match x with
  | Some a => ret a
  | None => raise TypeError
  end.

Fixpoint for_each {A} (l : list A) (body : A → M unit) : M unit :=
  match l with
  | [] => ret tt
  | x :: l' => let! _ := body x in for_each l' body
  end.

Fixpoint map_m {A B} (f : A → M B) (l : list A) : M (list B) :=
  match l with
  | [] => ret []
  | x :: l' => let! y := f x in let! ys := map_m f l' in ret (y :: ys)
  end.

(** ** Module [random] *)

Definition draw : M nat :=
  λ w, Ok (entropy w (cursor w), set_cursor (S (cursor w)) w).

(** [randint(a, b)]: an integer of [[a, b]]; an empty range raises. *)
Definition randint (a b : Z) : M Z :=
  if b <? a then raise ValueError
  else let! r := draw in ret (a + Z.of_nat r mod (b - a + 1)).

(** [random()]: a float of [[0, 1)], a multiple of [2 ** -53]. *)
Definition random : M Qc :=
  let! r := draw in ret (Q2Qc ((Z.of_nat r mod 2 ^ 53) # 2 ^ 53)).

(** [sample(population, 2)]: two elements at distinct positions.  The first
    is drawn from the whole pool, the last element of the pool is moved into
    its place, and the second is drawn from what is left. *)
Definition sample2 {A} (pool : list A) : M (A * A) :=
  let n := length pool in
  if (n <? 2)%nat then raise ValueError
  else
    let! r1 := draw in
    let! r2 := draw in
    let j1 := (r1 mod n)%nat in
    let pool' := match pool !! (n - 1)%nat with
                 | Some y => <[j1 := y]> pool
                 | None => pool
                 end in
    let j2 := (r2 mod (n - 1))%nat in
    match pool !! j1, pool' !! j2 with
    | Some x1, Some x2 => ret (x1, x2)
    | _, _ => raise ValueError
    end.

(** ** Class [Individual]: methods *)

(** Attribute assignment on an object. *)
Definition modify (l : loc) (f : Individual → Individual) : M unit :=
  let! o := deref l in store l (f o).

(** [Individual()]: a new object, every instance variable [None]. *)
Definition Individual_init : M loc :=
  λ w, let self := fresh (dom (heap w)) in
       Ok (self, set_heap (<[self := mkIndividual None None None None]> (heap w)) w).

Definition get_json_feature_set (self : loc) : M string :=
  let! o := deref self in
  let! fs := not_none (_feature_set o) in
  ret (dumps fs).

Definition get_unique_key (self : loc) : M string :=
  let! s := get_json_feature_set self in
  ret (sha224_hexdigest s).

Definition Individual_populate (self : loc) (g : Z) (feature_set : list Z) : M unit :=
  let! _ := modify self (set_gen (Some g)) in
  let! _ := modify self (set_feature_set (Some feature_set)) in
  let! k := get_unique_key self in
  modify self (set_key (Some k)).

Fixpoint randints (n : nat) (a b : Z) : M (list Z) :=
  match n with
  | O => ret []
  | S n' => let! v := randint a b in
            let! vs := randints n' a b in
            ret (v :: vs)
  end.

Definition generate_feature_set (self : loc) : M (list Z) :=
  let! l := randints (Z.to_nat Individual_length) Individual_min Individual_max in
  ret (sorted l).

Definition calc_fitness (self : loc) : M unit :=
  let! o := deref self in
  let! fs := not_none (_feature_set o) in
  store self (set_fitness (Some (fitness_of fs)) o).

(** The conversion [x / float(target)] makes of the integer [x] before it
    divides. *)
Definition to_float (x : Z) : M Qc :=
  if decide (Z.abs x < float_limit) then ret (float x) else raise OverflowError.

(** [calc_fitness] with that conversion written out:
    [abs(sum(self._feature_set) - target)] is an integer, and dividing it by
    a float converts it first. *)
Definition Individual_calc_fitness (self : loc) : M unit :=
  let! o := deref self in
  let! fs := not_none (_feature_set o) in
  let! d := to_float (Z.abs (sum fs - Individual_target)) in
  store self (set_fitness (Some (1 - d / float Individual_target)%Qc) o).

(** ** Class [Population]: birth and death *)

Definition _get_storage_path (indiv : loc) : M string :=
  let! p := get_pop in
  let! o := deref indiv in
  let! k := not_none (key o) in
  ret (prefix p +:+ "/" +:+ k).

Definition reify (indiv : loc) : M bool :=
  let! o := deref indiv in
  let! k := not_none (key o) in
  let! p := get_pop in
  if negb (bf_contains k (_bf p)) then
    let! _ := put_pop (set_bf (bf_update [k] (_bf p)) p) in
    let! _ := calc_fitness indiv in
    let! o := deref indiv in
    let! k := not_none (key o) in
    let! p := get_pop in
    let! _ := put_pop (set_uniq_dht (<[k := indiv]> (_uniq_dht p)) p) in
    ret true
  else
    ret false.

Definition evict (indiv : loc) : M unit :=
  let! o := deref indiv in
  let! p := get_pop in
  match key o with
  | Some k =>
      if decide (is_Some (_uniq_dht p !! k)) then
        let! _ := put_pop (set_uniq_dht (delete k (_uniq_dht p)) p) in
        let! url := _get_storage_path indiv in
        ret tt
      else ret tt
  | None => ret tt
  end.

Definition Population_populate (current_gen : Z) : M unit :=
  let! p := get_pop in
  for_each (replicate (Z.to_nat (n_pop p)) tt) (λ _,
    let! indiv := Individual_init in
    let! fs := generate_feature_set indiv in
    let! _ := Individual_populate indiv current_gen fs in
    let! _ := reify indiv in
    ret tt).

(** ** Class [Individual]: reproduction.  The [pop] argument of the source is
    the population of the world. *)

Definition mutate (self : loc) (g : Z) : M unit :=
  let! o := deref self in
  let! fs := not_none (_feature_set o) in
  let! pos_to_mutate := randint 0 (Z.of_nat (length fs) - 1) in
  (* [mutated_feature_set = self._feature_set] binds the same list: the item
     assignment below writes into the object *)
  let! v := randint Individual_min Individual_max in
  let mutated_feature_set := <[Z.to_nat pos_to_mutate := v]> fs in
  let! _ := modify self (set_feature_set (Some mutated_feature_set)) in
  let! mutant := Individual_init in
  let! _ := Individual_populate mutant g (sorted mutated_feature_set) in
  let! admitted := reify mutant in
  if admitted then evict self else ret tt.

Definition breed (self : loc) (g : Z) (mate : loc) : M unit :=
  let! o := deref self in
  let! fs := not_none (_feature_set o) in
  let half := Z.to_nat (Z.of_nat (length fs) / 2) in
  let! child := Individual_init in
  let! o := deref self in
  let! fs := not_none (_feature_set o) in
  let! m := deref mate in
  let! mfs := not_none (_feature_set m) in
  let! _ := Individual_populate child g (sorted (drop half fs ++ take half mfs)) in
  let! _ := reify child in
  ret tt.

(** ** Class [Population]: statistics *)

(** [d.values()] and [d.items()] of a dict, in the order of the map. *)
Definition values (d : gmap string loc) : list loc := (map_to_list d).*2.

(** [collections.Counter] on a list. *)
Definition Counter (xs : list Qc) : gmap Qc Z :=
  fold_left (λ d x, <[x := default 0 (d !! x) + 1]> d) xs ∅.

(** The order of [list.sort(reverse=True)] on (bin, count) tuples. *)
Definition tuple_ge (x y : Qc * Z) : Prop :=
  (y.1 < x.1)%Qc ∨ (x.1 = y.1 ∧ y.2 ≤ x.2).

Global Instance tuple_ge_dec : RelDecision tuple_ge.
Proof. intros x y. unfold tuple_ge. apply _. Defined.

Definition get_part_hist : M (list (Qc * Z)) :=
  let! p := get_pop in
  let! rounded := map_m (λ indiv,
      let! o := deref indiv in
      let! f := not_none (fitness o) in
      ret (round f (_hist_granularity p))) (values (_uniq_dht p)) in
  let d := map_to_list (Counter rounded) in
  ret (merge_sort tuple_ge d).

(** The loop of [get_fitness_cutoff].  [bin] is [None] as long as the loop
    variable is unbound; the target of the [for] is assigned before the body
    of the iteration runs. *)
Fixpoint cutoff_loop (hist : list (Qc * Z)) (n_pop : Z) (selection_rate : Qc)
    (sum : Z) (break_next : bool) (bin : option Qc) : M (option Qc) :=
  match hist with
  | [] => ret bin
  | (b, count) :: hist' =>
      if break_next then ret (Some b)
      else
        let sum := sum + count in
        if n_pop =? 0 then raise ZeroDivisionError
        else
          let percentile := (float sum / float n_pop)%Qc in
          cutoff_loop hist' n_pop selection_rate sum
            (Qc_geb percentile selection_rate) (Some b)
  end.

Definition get_fitness_cutoff (selection_rate : Qc) : M Qc :=
  let! hist := get_part_hist in
  let! p := get_pop in
  let! bin := cutoff_loop hist (n_pop p) selection_rate 0 false None in
  match bin with
  | Some b => ret b
  | None => raise UnboundLocalError
  end.

(** ** Class [Population]: one generation *)

Definition _boost_diversity (current_gen : Z) (indiv : loc) (mutation_rate : Qc) : M unit :=
  let! u := random in
  if Qc_gtb mutation_rate u then mutate indiv current_gen
  else evict indiv.

(** [x.fitness > fitness_cutoff]; in Python 2 [None] is below every number. *)
Definition fitness_gt (f : option Qc) (fitness_cutoff : Qc) : bool :=
  match f with
  | Some x => Qc_gtb x fitness_cutoff
  | None => false
  end.

Definition _select_parents (current_gen : Z) (fitness_cutoff mutation_rate : Qc)
    : M (list loc) :=
  let! p := get_pop in
  let! partition := map_m (λ x,
      let! o := deref x in
      ret (fitness_gt (fitness o) fitness_cutoff, x)) (values (_uniq_dht p)) in
  let good_fit := snd <$> filter (λ x, x.1 = true) partition in
  let poor_fit := snd <$> filter (λ x, x.1 = false) partition in
  let! _ := for_each poor_fit (λ indiv,
      _boost_diversity current_gen indiv mutation_rate) in
  let! p := get_pop in
  ret (values (_uniq_dht p)).

Definition next_generation (current_gen : Z) (fitness_cutoff mutation_rate : Qc)
    : M unit :=
  let! parents := _select_parents current_gen fitness_cutoff mutation_rate in
  let! p := get_pop in
  let! pairs := map_m (λ _, sample2 parents)
      (replicate (Z.to_nat (n_pop p - Z.of_nat (length parents))) tt) in
  for_each pairs (λ fm, breed fm.1 current_gen fm.2).

(** [print] of a progress line. *)
Definition print (line : progress_line) : M unit :=
  λ w, Ok (tt, set_stdout (line :: stdout w) w).

(** [sum] on a list of floats: a left fold from [0]. *)
Definition fsum (l : list Qc) : Qc := fold_left Qcplus l 0%Qc.

Definition test_termination (current_gen : Z) : M bool :=
  let! hist := get_part_hist in
  let! p := get_pop in
  if n_pop p =? 0 then raise ZeroDivisionError
  else
    let mse := (fsum ((λ bc, float bc.2 * (1 - bc.1) ^ 2) <$> hist)
                / float (n_pop p))%Qc in
    let! _ := print (current_gen, mse, filter (λ x, 0 < x.2) hist) in
    ret (Qc_leb mse (_term_limit p)).

End Engine.

(** ** Concrete libraries and worlds, for running the engine *)

(** A filter without false positives: the list of the keys it was fed. *)
#[export] Program Instance ExactFilter : BloomFilter := {|
  bf_state := list string;
  bf_new := [];
  bf_contains k b := bool_decide (k ∈ b);
  bf_update ks b := ks ++ b
|}.
Next Obligation. intros ks b k Hk. apply bool_decide_eq_true. set_solver. Qed.
Next Obligation.
  intros ks b k Hk. apply bool_decide_eq_true in Hk.
  apply bool_decide_eq_true. set_solver.
Qed.

(** A digest that keeps its input: the key is the JSON text itself. *)
#[export] Instance PlainDigest : Sha224 := {| sha224_hexdigest s := s |}.

(** An entropy tape that starts with the given draws and goes on with [0]. *)
Definition tape (draws : list nat) : nat → nat :=
  λ i, default 0%nat (draws !! i).

(** A world with a new population and no individual. *)
Definition new_world (n_pop : Z) (term_limit : Qc) (draws : list nat) : World :=
  mkWorld (Population_init "/tmp/exelixi" n_pop term_limit 3) ∅ (tape draws) 0 [].

(** The constructor pattern of the source on a given feature set, followed by
    [reify]: [indiv = cls(); indiv.populate(gen, fs); pop.reify(indiv)]. *)
Definition admit_features (g : Z) (fs : list Z) : M bool :=
  bind Individual_init (λ indiv,
  bind (Individual_populate indiv g fs) (λ _, reify indiv)).

(** The world a computation leaves; the world it started in if it raises. *)
Definition world_after `{BF : BloomFilter} {A} (m : M A) (w : World) : World :=
  match m w with
  | Ok (_, w') => w'
  | Raise _ => w
  end.

(** The value a computation returns, if it returns. *)
Definition value_of `{BF : BloomFilter} {A} (r : result (A * World)) : option A :=
  match r with
  | Ok (a, _) => Some a
  | Raise _ => None
  end.

(** One individual, bound to [1, 2, 3, 4, 5] and not yet reified. *)
Definition world_one_bound : World :=
  world_after (bind Individual_init (λ i, Individual_populate i 0 [1; 2; 3; 4; 5]))
    (new_world 11 0%Qc []).

(** The same individual reified, and a second object bound to the same
    feature set. *)
Definition world_two_twins : World :=
  world_after (bind (reify 1%positive) (λ _,
               bind Individual_init (λ i,
               Individual_populate i 1 [1; 2; 3; 4; 5])))
    world_one_bound.


(** Three members, of fitness 1, 230/231 and 0, in a population of three. *)
Definition world_three : World :=
  world_after (bind (admit_features 0 [31; 50; 50; 50; 50]) (λ _,
               bind (admit_features 0 [30; 50; 50; 50; 50]) (λ _,
               admit_features 0 [0; 0; 0; 0; 0])))
    (new_world 3 (Q2Qc (1 # 2)) []).


(** One member of fitness 1 in a population of three. *)
Definition world_single : World :=
  world_after (admit_features 0 [31; 50; 50; 50; 50]) (new_world 3 0%Qc []).

(** Two members, [1, 2, 3, 4, 5] and [2, 2, 3, 4, 5]; the random module will
    draw 0 and then 2. *)
Definition world_two_neighbours : World :=
  world_after (bind (admit_features 0 [1; 2; 3; 4; 5]) (λ _,
               admit_features 0 [2; 2; 3; 4; 5]))
    (new_world 11 0%Qc [0; 2]%nat).

(** One individual bound to the feature set [[10 ** 400]]. *)
Definition world_huge : World :=
  world_after (bind Individual_init (λ i, Individual_populate i 0 [10 ^ 400]))
    (new_world 11 0%Qc []).

(** The object a reference leads to in a world. *)
Definition object_at (w : World) (l : loc) : Individual :=
  default (mkIndividual None None None None) (heap w !! l).


(** One member in a population with [n_pop = 0]. *)
Definition world_zero_n_pop : World :=
  world_after (admit_features 0 [31; 50; 50; 50; 50]) (new_world 0 0%Qc []).

(** [world_single] after its member was evicted: the key of the member is in
    the filter and not in the exact store. *)
Definition world_evicted : World :=
  world_after (evict 1%positive) world_single.


(** The pool [_select_parents] leaves in [world_three] for generation 1, a
    cutoff of 1/2 and no mutation, the world it leaves and the first pair of
    parents sampled there. *)
Definition pool_three : list loc :=
  default [] (value_of (_select_parents 1 (Q2Qc (1 # 2)) 0%Qc world_three)).

Definition world_three_culled : World :=
  world_after (_select_parents 1 (Q2Qc (1 # 2)) 0%Qc) world_three.

Definition pair_three : loc * loc :=
  default (1%positive, 1%positive) (value_of (sample2 pool_three world_three_culled)).


(** * Vocabulary of the properties *)

Section Vocabulary.
Context `{BF : BloomFilter} `{SHA : Sha224}.

(** What a store into the heap of a world gives. *)
Definition heap_put (l : loc) (o : Individual) (w : World) : World :=
  set_heap (<[l := o]> (heap w)) w.

(** The reference [Individual()] returns. *)
Definition fresh_loc (w : World) : loc := fresh (dom (heap w)).

(** The exact store and the filter of the population of a world. *)
Definition members (w : World) : gmap string loc := _uniq_dht (population w).
Definition seen (k : string) (w : World) : Prop :=
  bf_contains k (_bf (population w)) = true.

(** A member is sound when its reference leads to an object that carries the
    key it is stored under, a fitness and a non-empty feature set. *)
Definition member_ok (w : World) (k : string) (l : loc) : Prop :=
  match heap w !! l with
  | Some o =>
      key o = Some k ∧ is_Some (fitness o) ∧
      match _feature_set o with
      | Some fs => fs ≠ []
      | None => False
      end
  | None => False
  end.

Definition members_ok (w : World) : Prop := map_Forall (member_ok w) (members w).

(** Every key of the exact store went through the filter. *)
Definition members_seen (w : World) : Prop :=
  map_Forall (λ k _, seen k w) (members w).

(** An object one can mutate or breed: bound to a non-empty feature set. *)
Definition bound (w : World) (l : loc) : Prop :=
  match heap w !! l with
  | Some o =>
      is_Some (key o) ∧
      match _feature_set o with
      | Some fs => fs ≠ []
      | None => False
      end
  | None => False
  end.

(** The world after [reify] admitted the individual at [indiv], an object [o]
    with key [k] and feature set [fs]. *)
Definition reified (indiv : loc) (o : Individual) (k : string) (fs : list Z)
    (w : World) : World :=
  set_population
    (set_uniq_dht (<[k := indiv]> (members w))
       (set_bf (bf_update [k] (_bf (population w))) (population w)))
    (heap_put indiv (set_fitness (Some (fitness_of fs)) o) w).

(** The world after [evict] on an object with key [k]. *)
Definition evicted (k : option string) (w : World) : World :=
  match k with
  | Some k => set_population (set_uniq_dht (delete k (members w)) (population w)) w
  | None => w
  end.

(** The filter only grows. *)
Definition seen_le (w w' : World) : Prop := ∀ k, seen k w → seen k w'.

(** The population is left as it was. *)
Definition same_population (w w' : World) : Prop := population w' = population w.

(** Whenever the computation returns, the worlds before and after it are
    related by [R]. *)
Definition follows (R : World → World → Prop) {A} (m : M A) : Prop :=
  ∀ w a w', m w = Ok (a, w') → R w w'.

(** A call of a method of the engine. *)
Inductive call : Type :=
  | call_Individual
  | call_Individual_populate (self : loc) (g : Z) (feature_set : list Z)
  | call_generate_feature_set (self : loc)
  | call_calc_fitness (self : loc)
  | call_mutate (self : loc) (g : Z)
  | call_breed (self : loc) (g : Z) (mate : loc)
  | call_Population_populate (current_gen : Z)
  | call_reify (indiv : loc)
  | call_evict (indiv : loc)
  | call_get_part_hist
  | call_get_fitness_cutoff (selection_rate : Qc)
  | call_next_generation (current_gen : Z) (fitness_cutoff mutation_rate : Qc)
  | call_test_termination (current_gen : Z).

Definition discard {A} (m : M A) : M unit := bind m (λ _, ret tt).

Definition run_call (c : call) : M unit :=
  match c with
  | call_Individual => discard Individual_init
  | call_Individual_populate self g fs => Individual_populate self g fs
  | call_generate_feature_set self => discard (generate_feature_set self)
  | call_calc_fitness self => calc_fitness self
  | call_mutate self g => mutate self g
  | call_breed self g mate => breed self g mate
  | call_Population_populate g => Population_populate g
  | call_reify indiv => discard (reify indiv)
  | call_evict indiv => evict indiv
  | call_get_part_hist => discard get_part_hist
  | call_get_fitness_cutoff r => discard (get_fitness_cutoff r)
  | call_next_generation g c r => next_generation g c r
  | call_test_termination g => discard (test_termination g)
  end.

Definition run_calls (cs : list call) : M unit := for_each cs run_call.

(** The fitness of the object a reference leads to. *)
Definition fitness_at (w : World) (l : loc) : option Qc := heap w !! l ≫= fitness.

(** The rounded fitness values [get_part_hist] tallies, in the order of
    [values]. *)
Definition rounded_fitnesses (w : World) : list Qc :=
  (λ l, round (default 0%Qc (fitness_at w l)) (_hist_granularity (population w)))
    <$> values (members w).

(** The histogram of a world whose members all have a fitness. *)
Definition part_hist (w : World) : list (Qc * Z) :=
  merge_sort tuple_ge (map_to_list (Counter (rounded_fitnesses w))).

(** C5 as the specification words it: on an individual bound to [fs],
    [calc_fitness] sets the fitness to [1 - |sum(fs) - target| / target]. *)
Definition fitness_is_set (w : World) (self : loc) (fs : list Z) : Prop :=
  ∃ w', Individual_calc_fitness self w = Ok (tt, w') ∧
        fitness_at w' self = Some (fitness_of fs).

(** [z] is the integer nearest to [x], and of the two nearest the one away
    from zero when [x] is halfway between them. *)
Definition nearest_away (x : Qc) (z : Z) : Prop :=
  ((0 ≤ x)%Qc →
   (float z - Q2Qc (1 # 2) ≤ x)%Qc ∧ (x < float z + Q2Qc (1 # 2))%Qc) ∧
  ((x < 0)%Qc →
   (float z - Q2Qc (1 # 2) < x)%Qc ∧ (x ≤ float z + Q2Qc (1 # 2))%Qc).

(** [b] is [x] rounded to [ndigits] places: the multiple of
    [10 ** -ndigits] nearest to [x], halves away from zero. *)
Definition rounds_to (ndigits : Z) (x b : Qc) : Prop :=
  ∃ z : Z, nearest_away (x * pow10 ndigits) z ∧ b = (float z / pow10 ndigits)%Qc.

(** How many times a value occurs in a list. *)
Definition occurrences (x : Qc) (xs : list Qc) : Z :=
  Z.of_nat (length (filter (λ y, y = x) xs)).

(** The sum of the counts of a histogram. *)
Definition total (hist : list (Qc * Z)) : Z := foldr (λ bc acc, bc.2 + acc) 0 hist.

(** Bins in strictly descending order. *)
Definition bins_descending (hist : list (Qc * Z)) : Prop :=
  StronglySorted (λ x y, (y.1 < x.1)%Qc) hist.

(** The number of members in the bins [0..i] of a histogram. *)
Definition cumulative (hist : list (Qc * Z)) (i : nat) : Z := total (take (S i) hist).

(** The test of the loop of [get_fitness_cutoff] after bin [i], when [s]
    members were counted before the histogram: the cumulative count over
    [n_pop] reaches [selection_rate]. *)
Definition reaches (n_pop : Z) (selection_rate : Qc) (s : Z)
    (hist : list (Qc * Z)) (i : nat) : Prop :=
  Qc_geb (float (s + cumulative hist i) / float n_pop) selection_rate = true.





Global Instance member_ok_dec w k l : Decision (member_ok w k l).
Proof.
  unfold member_ok. destruct (heap w !! l) as [o|]; [|apply _].
  destruct (_feature_set o); apply _.
Defined.

Global Instance members_ok_dec w : Decision (members_ok w).
Proof. unfold members_ok. apply _. Defined.

(** The object the constructor pattern of the source builds,
    [x = cls(); x.populate(g, fs)], and the world it leaves. *)
Definition new_individual (g : Z) (fs : list Z) : Individual :=
  mkIndividual (Some g) (Some fs) (Some (unique_key fs)) None.

Definition constructed (g : Z) (fs : list Z) (w : World) : World :=
  heap_put (fresh_loc w) (new_individual g fs) w.

(** The feature set of the child of two feature sets. *)
Definition crossover (fs mfs : list Z) : list Z :=
  sorted (drop (length fs / 2)%nat fs ++ take (length fs / 2)%nat mfs).

(** The invariant of the population: sound members, all of them seen. *)
Definition sound (w : World) : Prop := members_ok w ∧ members_seen w.

Global Instance members_seen_dec w : Decision (members_seen w).
Proof. unfold members_seen, seen. apply _. Defined.

Global Instance sound_dec w : Decision (sound w).
Proof. unfold sound. apply _. Defined.

(** Bound objects stay bound. *)
Definition bound_le (w w' : World) : Prop := ∀ l, bound w l → bound w' l.

(** What [randint(a, b)] returns on the next draw. *)
Definition next_randint (a b : Z) (w : World) : Z :=
  a + Z.of_nat (entropy w (cursor w)) mod (b - a + 1).

(** The world after [mutate] on the object [o] at [self], bound to [fs]. *)
Definition mutated (self : loc) (g : Z) (o : Individual) (fs : list Z)
    (w : World) : World :=
  let pos_to_mutate := next_randint 0 (Z.of_nat (length fs) - 1) w in
  let w1 := set_cursor (S (cursor w)) w in
  let v := next_randint Individual_min Individual_max w1 in
  let mutated_feature_set := <[Z.to_nat pos_to_mutate := v]> fs in
  let w2 := heap_put self (set_feature_set (Some mutated_feature_set) o)
              (set_cursor (S (cursor w1)) w1) in
  let w3 := constructed g (sorted mutated_feature_set) w2 in
  let k := unique_key (sorted mutated_feature_set) in
  if bf_contains k (_bf (population w)) then w3
  else evicted (key o)
         (reified (fresh_loc w2) (new_individual g (sorted mutated_feature_set)) k
            (sorted mutated_feature_set) w3).

(** The world after [_boost_diversity] on the object [o] at [indiv]. *)
Definition boosted (indiv : loc) (g : Z) (mutation_rate : Qc) (o : Individual)
    (fs : list Z) (w : World) : World :=
  let u := Q2Qc ((Z.of_nat (entropy w (cursor w)) mod 2 ^ 53) # 2 ^ 53) in
  let w1 := set_cursor (S (cursor w)) w in
  if Qc_gtb mutation_rate u then mutated indiv g o fs w1
  else evicted (key o) w1.

(** Two parents taken at distinct positions of the pool. *)
Definition distinct_parents (pool : list loc) (fm : loc * loc) : Prop :=
  ∃ i j, i ≠ j ∧ pool !! i = Some fm.1 ∧ pool !! j = Some fm.2.


(** A key that the filter has seen enters the exact store no more: the
    filter only grows, and the entries of seen keys are entries the store
    already had. *)
Definition no_return (w w' : World) : Prop :=
  seen_le w w' ∧
  ∀ k l, members w' !! k = Some l → seen k w → members w !! k = Some l.

(** A reference the exact store holds. *)
Definition is_member (w : World) (l : loc) : Prop := ∃ k, members w !! k = Some l.

(** The individuals [_select_parents] sends through the diversity pass. *)
Definition poor_fit_of (w : World) (fitness_cutoff : Qc) : list loc :=
  (filter (λ x, x.1 = false)
     ((λ x, (fitness_gt (fitness_at w x) fitness_cutoff, x)) <$> values (members w))).*2.

(** An individual as [Population.populate] makes them in generation [g]:
    [length] features of [[min, max]] in ascending order, the fingerprint
    and the fitness of that feature set. *)
Definition newborn (g : Z) (w : World) (l : loc) : Prop :=
  ∃ fs, heap w !! l
        = Some (mkIndividual (Some g) (Some fs) (Some (unique_key fs))
                  (Some (fitness_of fs))) ∧
        Z.of_nat (length fs) = Individual_length ∧
        Forall (λ v, Individual_min ≤ v ≤ Individual_max) fs ∧
        Sorted Z.le fs.

(** One iteration of the loop of [Population.populate]. *)
Definition populate_one (current_gen : Z) : M unit :=
  bind Individual_init (λ indiv,
  bind (generate_feature_set indiv) (λ fs,
  bind (Individual_populate indiv current_gen fs) (λ _,
  bind (reify indiv) (λ _, ret tt)))).


(** The calls a driver of the evolution makes on a population. *)
Definition driver_call (c : call) : Prop :=
  match c with
  | call_Population_populate _ | call_get_part_hist | call_get_fitness_cutoff _
  | call_next_generation _ _ _ | call_test_termination _ => True
  | _ => False
  end.

(** The exceptions such a driver can meet. *)
Definition driver_error (e : exn) : Prop :=
  e = ValueError ∨ e = ZeroDivisionError ∨ e = UnboundLocalError.

(** The outcome of a driver: a population that satisfies the invariant, or
    one of the exceptions above. *)
Definition driver_outcome {A} (r : result (A * World)) : Prop :=
  match r with
  | Ok (_, w') => sound w'
  | Raise e => driver_error e
  end.


(** The separator of the items of a JSON array. *)
Definition comma : ascii := ","%char.

(** A feature set within the parameters of the class: [length] features of
    [[min, max]]. *)
Definition shaped (fs : list Z) : Prop :=
  Z.of_nat (length fs) = Individual_length ∧
  Forall (λ v, Individual_min ≤ v ≤ Individual_max) fs.

(** Every feature set an object is bound to is within the parameters. *)
Definition heap_shaped (w : World) : Prop :=
  map_Forall (λ _ o, from_option shaped True (_feature_set o)) (heap w).

Global Instance shaped_dec fs : Decision (shaped fs).
Proof. unfold shaped. apply _. Defined.

Global Instance heap_shaped_dec w : Decision (heap_shaped w).
Proof.
  unfold heap_shaped. apply map_Forall_dec. intros l o.
  destruct (_feature_set o); apply _.
Defined.


End Vocabulary.

(** * Properties *)

(** ** Arithmetic of the float model *)


Lemma Qc_leb_true (x y : Qc) : Qc_leb x y = true ↔ (x ≤ y)%Qc.
Proof. unfold Qc_leb. apply Qle_bool_iff. Qed.


Lemma float_target_pos : (0 < float Individual_target)%Qc.
Proof. unfold float. rewrite <- Z2Qc_inj_0. by apply (proj1 (Z2Qc_inj_lt _ _)). Qed.

Lemma fitness_of_exact (fs : list Z) :
  sum fs = Individual_target → fitness_of fs = 1%Qc.
Proof.
  intros Hs. unfold fitness_of. rewrite Hs, Z.sub_diag. simpl.
  apply Qc_is_canon. reflexivity.
Qed.

Lemma fitness_of_le_1 (fs : list Z) : (fitness_of fs ≤ 1)%Qc.
Proof.
  unfold fitness_of.
  set (d := (float (Z.abs (sum fs - Individual_target)) / float Individual_target)%Qc).
  assert (Hd : (0 ≤ d)%Qc).
  { unfold d, Qcdiv. apply Qcmult_nonneg_nonneg.
    - unfold float. rewrite <- Z2Qc_inj_0.
      apply (proj1 (Z2Qc_inj_le _ _)). lia.
    - apply Qclt_le_weak, Qcinv_pos, float_target_pos. }
  apply Qcle_minus_iff. ring_simplify. exact Hd.
Qed.

Lemma fitness_of_negative (fs : list Z) :
  Individual_target < Z.abs (sum fs - Individual_target) →
  (fitness_of fs < 0)%Qc.
Proof.
  intros Hfar. unfold fitness_of.
  set (a := float (Z.abs (sum fs - Individual_target))).
  set (t := float Individual_target).
  assert (Ht : (0 < t)%Qc) by apply float_target_pos.
  assert (Hat : (t < a)%Qc) by (by apply (proj1 (Z2Qc_inj_lt _ _))).
  assert (H1 : (1 < a / t)%Qc).
  { apply (Qcmult_lt_mono_pos_r _ _ t Ht).
    unfold Qcdiv. rewrite <- Qcmult_assoc, (Qcmult_comm (/ t)%Qc).
    rewrite Qcmult_inv_r by (intros Heq; rewrite Heq in Ht; by apply Qclt_not_eq in Ht).
    by rewrite Qcmult_1_l, Qcmult_1_r. }
  apply Qclt_minus_iff in H1. apply Qclt_minus_iff.
  by replace (0 + - (1 - a / t))%Qc with (a / t + - 1)%Qc by ring.
Qed.

(** ** Rounding *)

Ltac to_Q :=
  unfold Qcle, Qclt, Qcminus, Qcplus, Qcopp, float, Qc_of_Z in *;
  cbn [this Q2Qc] in *; rewrite ?Qred_correct in *;
  change (inject_Z 1) with 1%Q in *.

Lemma round_half_away_nearest (x : Qc) : nearest_away x (round_half_away x).
Proof.
  unfold nearest_away, round_half_away.
  destruct (Qle_bool 0 x) eqn:Hx.
  - apply Qle_bool_iff in Hx.
    pose proof (Qfloor_le (x + Q2Qc (1 # 2))%Qc) as Hlo.
    pose proof (Qlt_floor (x + Q2Qc (1 # 2))%Qc) as Hhi.
    rewrite inject_Z_plus in Hhi.
    set (m := Qfloor (x + Q2Qc (1 # 2))%Qc) in *.
    split.
    + intros _. to_Q. split; lra.
    + intros Hneg. to_Q. lra.
  - assert (Hneg : (x < 0)%Q).
    { apply Qnot_le_lt. intros H. apply Qle_bool_iff in H. congruence. }
    pose proof (Qfloor_le (- x + Q2Qc (1 # 2))%Qc) as Hlo.
    pose proof (Qlt_floor (- x + Q2Qc (1 # 2))%Qc) as Hhi.
    rewrite inject_Z_plus in Hhi.
    set (m := Qfloor (- x + Q2Qc (1 # 2))%Qc) in *.
    split.
    + intros Hpos. to_Q. lra.
    + intros _. to_Q. rewrite inject_Z_opp. split; lra.
Qed.

Lemma nearest_away_unique (x : Qc) (z1 z2 : Z) :
  nearest_away x z1 → nearest_away x z2 → z1 = z2.
Proof.
  intros [Hp1 Hn1] [Hp2 Hn2].
  assert (Hz : ∀ a b : Z, (inject_Z a < inject_Z b + 1)%Q → a ≤ b).
  { intros a b Hab. change 1%Q with (inject_Z 1) in Hab.
    rewrite <- inject_Z_plus in Hab. rewrite <- Zlt_Qlt in Hab. lia. }
  destruct (Qclt_le_dec x 0) as [Hneg|Hpos].
  - specialize (Hn1 Hneg). specialize (Hn2 Hneg). clear Hp1 Hp2.
    destruct Hn1 as [Hl1 Hu1], Hn2 as [Hl2 Hu2]. to_Q.
    apply Z.le_antisymm; apply Hz; lra.
  - specialize (Hp1 Hpos). specialize (Hp2 Hpos). clear Hn1 Hn2.
    destruct Hp1 as [Hl1 Hu1], Hp2 as [Hl2 Hu2]. to_Q.
    apply Z.le_antisymm; apply Hz; lra.
Qed.

(** [round] is rounding to the nearest multiple, halves away from zero, and
    nothing else is. *)
Lemma round_rounds_to (ndigits : Z) (x b : Qc) :
  round x ndigits = b ↔ rounds_to ndigits x b.
Proof.
  unfold round, rounds_to. split.
  - intros <-. eexists. split; [apply round_half_away_nearest | done].
  - intros (z & Hz & ->).
    by rewrite (nearest_away_unique _ _ _ Hz (round_half_away_nearest _)).
Qed.

Lemma filter_fmap_length {A B} (f : A → B) `{EqDecision B} (b : B) (l : list A) :
  length (filter (λ y, y = b) (f <$> l)) = length (filter (λ x, f x = b) l).
Proof.
  induction l as [|x l IH]; [done|]. rewrite fmap_cons.
  destruct (decide (f x = b)) as [Hx|Hx].
  - rewrite !filter_cons_True by done. simpl. by rewrite IH.
  - rewrite !filter_cons_False by done. done.
Qed.

Section Properties.
Context `{BF : BloomFilter} `{SHA : Sha224}.

(** ** Reasoning in the monad *)

Lemma bind_Ok {A B} (m : M A) (k : A → M B) w b w' :
  bind m k w = Ok (b, w') ↔ ∃ a w1, m w = Ok (a, w1) ∧ k a w1 = Ok (b, w').
Proof.
  unfold bind. split.
  - destruct (m w) as [[a w1]|e]; [eauto | discriminate].
  - intros (a & w1 & -> & Hk). exact Hk.
Qed.

Lemma bind_eq {A B} (m : M A) (k : A → M B) w a w1 :
  m w = Ok (a, w1) → bind m k w = k a w1.
Proof. unfold bind. by intros ->. Qed.

Lemma bind_Raise {A B} (m : M A) (k : A → M B) w e :
  m w = Raise e → bind m k w = Raise e.
Proof. unfold bind. by intros ->. Qed.

Lemma bind_ret {A B} (a : A) (k : A → M B) w : bind (ret a) k w = k a w.
Proof. reflexivity. Qed.

Lemma bind_get_pop {B} (k : Population → M B) w :
  bind get_pop k w = k (population w) w.
Proof. reflexivity. Qed.

Lemma bind_put_pop {B} p (k : unit → M B) w :
  bind (put_pop p) k w = k tt (set_population p w).
Proof. reflexivity. Qed.

Lemma bind_assoc {A B C} (m : M A) (k : A → M B) (k' : B → M C) w :
  bind (bind m k) k' w = bind m (λ a, bind (k a) k') w.
Proof. unfold bind. by destruct (m w) as [[a w1]|e]. Qed.

Ltac mstep :=
  repeat first [rewrite bind_assoc | rewrite bind_ret
               | rewrite bind_get_pop | rewrite bind_put_pop].

Lemma deref_eq w l o : heap w !! l = Some o → deref l w = Ok (o, w).
Proof. unfold deref. by intros ->. Qed.

Lemma set_heap_id w : set_heap (heap w) w = w.
Proof. by destruct w. Qed.

Lemma set_population_id w : set_population (population w) w = w.
Proof. by destruct w. Qed.

Lemma heap_put_put l o o' w : heap_put l o' (heap_put l o w) = heap_put l o' w.
Proof. unfold heap_put, set_heap. simpl. by rewrite insert_insert_eq. Qed.

Lemma heap_put_lookup l o w : heap (heap_put l o w) !! l = Some o.
Proof. unfold heap_put. simpl. apply lookup_insert_eq. Qed.

Lemma heap_put_lookup_ne l l' o w :
  l ≠ l' → heap (heap_put l o w) !! l' = heap w !! l'.
Proof. intros. unfold heap_put. simpl. by apply lookup_insert_ne. Qed.

Lemma modify_eq w l o f :
  heap w !! l = Some o → modify l f w = Ok (tt, heap_put l (f o) w).
Proof. intros Ho. unfold modify. by rewrite (bind_eq _ _ _ _ _ (deref_eq _ _ _ Ho)). Qed.

(** ** What the methods of [Individual] compute *)

Lemma fresh_loc_None w : heap w !! fresh_loc w = None.
Proof. unfold fresh_loc. apply (not_elem_of_dom (D:=gset loc)). apply is_fresh. Qed.

Lemma Individual_init_eq w :
  Individual_init w =
  Ok (fresh_loc w, heap_put (fresh_loc w) (mkIndividual None None None None) w).
Proof. reflexivity. Qed.

Lemma Individual_populate_eq w self o g fs :
  heap w !! self = Some o →
  Individual_populate self g fs w =
  Ok (tt, heap_put self
            (mkIndividual (Some g) (Some fs) (Some (unique_key fs)) (fitness o)) w).
Proof.
  intros Ho. unfold Individual_populate.
  rewrite (bind_eq _ _ _ _ _ (modify_eq _ _ _ _ Ho)).
  rewrite (bind_eq _ _ _ _ _ (modify_eq _ _ _ _ (heap_put_lookup _ _ _))).
  rewrite heap_put_put.
  unfold get_unique_key, get_json_feature_set.
  erewrite bind_eq; last first.
  { erewrite bind_eq; last first.
    { erewrite bind_eq by (apply deref_eq, heap_put_lookup). simpl.
      reflexivity. }
    reflexivity. }
  rewrite (modify_eq _ _ _ _ (heap_put_lookup _ _ _)).
  by rewrite heap_put_put.
Qed.

Lemma calc_fitness_eq w self o fs :
  heap w !! self = Some o → _feature_set o = Some fs →
  calc_fitness self w =
  Ok (tt, heap_put self (set_fitness (Some (fitness_of fs)) o) w).
Proof.
  intros Ho Hfs. unfold calc_fitness.
  rewrite (bind_eq _ _ _ _ _ (deref_eq _ _ _ Ho)), Hfs. reflexivity.
Qed.

(** ** What [reify] and [evict] compute *)

Lemma reify_eq w indiv o k fs :
  heap w !! indiv = Some o → key o = Some k → _feature_set o = Some fs →
  reify indiv w =
  if bf_contains k (_bf (population w)) then Ok (false, w)
  else Ok (true, reified indiv o k fs w).
Proof.
  intros Ho Hk Hfs. unfold reify.
  rewrite (bind_eq _ _ _ _ _ (deref_eq _ _ _ Ho)), Hk. simpl. mstep.
  destruct (bf_contains k (_bf (population w))); simpl; [done|].
  mstep.
  erewrite bind_eq; last first.
  { apply calc_fitness_eq; [exact Ho | exact Hfs]. }
  erewrite bind_eq by (apply deref_eq, heap_put_lookup).
  simpl. rewrite Hk. simpl. mstep. reflexivity.
Qed.

Lemma evict_eq w indiv o :
  heap w !! indiv = Some o → evict indiv w = Ok (tt, evicted (key o) w).
Proof.
  intros Ho. unfold evict.
  rewrite (bind_eq _ _ _ _ _ (deref_eq _ _ _ Ho)). mstep.
  destruct (key o) as [k|] eqn:Hk; [|done].
  destruct (decide _) as [Hin|Hout].
  - mstep. unfold _get_storage_path. mstep.
    erewrite bind_eq by (by apply deref_eq). rewrite Hk. reflexivity.
  - simpl. unfold ret, members. f_equal. f_equal.
    rewrite delete_id by (by apply eq_None_not_Some).
    by destruct w as [[]].
Qed.

(** ** Relations every returning call respects *)

Section Follows.
Context (R : World → World → Prop) `{!PreOrder R}.

Lemma follows_ret {A} (a : A) : follows R (ret a).
Proof. intros w a' w' [= _ <-]. reflexivity. Qed.

Lemma follows_raise {A} e : follows R (raise (A:=A) e).
Proof. intros w a w' [=]. Qed.

Lemma follows_bind {A B} (m : M A) (k : A → M B) :
  follows R m → (∀ a, follows R (k a)) → follows R (bind m k).
Proof.
  intros Hm Hk w b w' (a & w1 & H1 & H2)%bind_Ok.
  transitivity w1; [by eapply Hm | by eapply Hk].
Qed.

Lemma follows_for_each {A} (l : list A) (body : A → M unit) :
  (∀ x, follows R (body x)) → follows R (for_each l body).
Proof.
  intros Hb. induction l as [|x l IH]; simpl.
  - apply follows_ret.
  - apply follows_bind; [apply Hb | intros _; apply IH].
Qed.

Lemma follows_map_m {A B} (f : A → M B) (l : list A) :
  (∀ x, follows R (f x)) → follows R (map_m f l).
Proof.
  intros Hf. induction l as [|x l IH]; simpl.
  - apply follows_ret.
  - apply follows_bind; [apply Hf | intros y].
    apply follows_bind; [apply IH | intros ys; apply follows_ret].
Qed.

Lemma follows_not_none {A} (x : option A) : follows R (not_none x).
Proof. destruct x; [apply follows_ret | apply follows_raise]. Qed.

Lemma follows_get_pop : follows R get_pop.
Proof. intros w a w' [= _ <-]. reflexivity. Qed.

Lemma follows_deref l : follows R (deref l).
Proof.
  intros w a w'. unfold deref. destruct (heap w !! l); [|done].
  intros [= _ <-]. reflexivity.
Qed.

End Follows.

Global Instance same_population_preorder : PreOrder same_population.
Proof.
  split; [done|]. intros w1 w2 w3 H12 H23. unfold same_population in *. congruence.
Qed.

Global Instance seen_le_preorder : PreOrder seen_le.
Proof. split; [by intros w k | intros w1 w2 w3 H12 H23 k Hk; auto]. Qed.

Lemma follows_weaken (R R' : World → World → Prop) {A} (m : M A) :
  (∀ w w', R w w' → R' w w') → follows R m → follows R' m.
Proof. intros HR Hm w a w' Hrun. eapply HR, Hm, Hrun. Qed.

Lemma same_population_seen_le w w' : same_population w w' → seen_le w w'.
Proof. intros Hp k. unfold seen. by rewrite Hp. Qed.

Ltac follows_step :=
  first
    [ apply follows_ret; typeclasses eauto
    | apply follows_raise; typeclasses eauto
    | apply follows_get_pop; typeclasses eauto
    | apply follows_deref; typeclasses eauto
    | apply follows_not_none; typeclasses eauto
    | apply follows_bind; [typeclasses eauto | | intros ?]
    | apply follows_for_each; [typeclasses eauto | intros ?]
    | apply follows_map_m; [typeclasses eauto | intros ?]
    | assumption
    | match goal with
      | |- follows _ (if ?b then _ else _) => destruct b
      | |- follows _ (match ?x with _ => _ end) => destruct x
      | |- follows _ (let (_, _) := ?x in _) => destruct x
      end ].

(** *** Computations that leave the population alone *)

Lemma same_population_store l o : follows same_population (store l o).
Proof. by intros w a w' [= _ <-]. Qed.

Lemma same_population_draw : follows same_population draw.
Proof. by intros w a w' [= _ <-]. Qed.

Lemma same_population_print line : follows same_population (print line).
Proof. by intros w a w' [= _ <-]. Qed.

Lemma same_population_Individual_init : follows same_population Individual_init.
Proof. by intros w a w' [= _ <-]. Qed.

Ltac same_population_tac :=
  repeat first
    [ follows_step
    | apply same_population_store | apply same_population_draw
    | apply same_population_print | apply same_population_Individual_init ].

Lemma same_population_modify l f : follows same_population (modify l f).
Proof. unfold modify. same_population_tac. Qed.

Lemma same_population_randint a b : follows same_population (randint a b).
Proof. unfold randint. same_population_tac. Qed.

Lemma same_population_random : follows same_population random.
Proof. unfold random. same_population_tac. Qed.

Lemma same_population_sample2 {A} (pool : list A) :
  follows same_population (sample2 pool).
Proof. unfold sample2. same_population_tac. Qed.

Lemma same_population_randints n a b : follows same_population (randints n a b).
Proof.
  induction n as [|n IH]; simpl; same_population_tac.
  all: try apply same_population_randint.
Qed.

Lemma same_population_generate_feature_set self :
  follows same_population (generate_feature_set self).
Proof.
  unfold generate_feature_set. same_population_tac.
  all: try apply same_population_randints.
Qed.

Lemma same_population_Individual_populate self g fs :
  follows same_population (Individual_populate self g fs).
Proof.
  unfold Individual_populate, get_unique_key, get_json_feature_set.
  same_population_tac. all: try apply same_population_modify.
Qed.

Lemma same_population_calc_fitness self :
  follows same_population (calc_fitness self).
Proof. unfold calc_fitness. same_population_tac. Qed.

Lemma same_population_get_part_hist : follows same_population get_part_hist.
Proof. unfold get_part_hist. same_population_tac. Qed.

Lemma same_population_cutoff_loop hist n r s bn cur :
  follows same_population (cutoff_loop hist n r s bn cur).
Proof.
  revert s bn cur. induction hist as [|[b c] hist IH]; intros s bn cur; simpl.
  - same_population_tac.
  - destruct bn; [same_population_tac|].
    destruct (n =? 0); [same_population_tac | apply IH].
Qed.

Lemma same_population_get_fitness_cutoff r :
  follows same_population (get_fitness_cutoff r).
Proof.
  unfold get_fitness_cutoff. same_population_tac.
  all: first [apply same_population_get_part_hist | apply same_population_cutoff_loop].
Qed.

Lemma same_population_test_termination g :
  follows same_population (test_termination g).
Proof.
  unfold test_termination. same_population_tac.
  all: try apply same_population_get_part_hist.
Qed.

Create HintDb same_pop discriminated.
#[local] Hint Resolve same_population_store same_population_draw
  same_population_print same_population_Individual_init same_population_modify
  same_population_randint same_population_random same_population_sample2
  same_population_randints same_population_generate_feature_set
  same_population_Individual_populate same_population_calc_fitness
  same_population_get_part_hist same_population_cutoff_loop
  same_population_get_fitness_cutoff same_population_test_termination : same_pop.

(** *** What a returning [reify] or [evict] did *)

Lemma reify_inv w indiv b w' :
  reify indiv w = Ok (b, w') →
  ∃ o k, heap w !! indiv = Some o ∧ key o = Some k ∧
    ((seen k w ∧ b = false ∧ w' = w) ∨
     (¬ seen k w ∧ b = true ∧
      ∃ fs, _feature_set o = Some fs ∧ w' = reified indiv o k fs w)).
Proof.
  intros Hrun.
  destruct (heap w !! indiv) as [o|] eqn:Ho; last first.
  { unfold reify in Hrun. apply bind_Ok in Hrun as (? & ? & Hd & _).
    unfold deref in Hd. by rewrite Ho in Hd. }
  destruct (key o) as [k|] eqn:Hk; last first.
  { unfold reify in Hrun.
    rewrite (bind_eq _ _ _ _ _ (deref_eq _ _ _ Ho)), Hk in Hrun. done. }
  exists o, k. split_and!; [done..|]. unfold seen.
  destruct (bf_contains k (_bf (population w))) eqn:Hbf.
  - left. unfold reify in Hrun.
    rewrite (bind_eq _ _ _ _ _ (deref_eq _ _ _ Ho)), Hk in Hrun.
    simpl in Hrun. rewrite bind_ret, bind_get_pop, Hbf in Hrun.
    by injection Hrun as <- <-.
  - right. destruct (_feature_set o) as [fs|] eqn:Hfs.
    + rewrite (reify_eq _ _ _ _ _ Ho Hk Hfs), Hbf in Hrun.
      injection Hrun as <- <-. split_and!; [done..|]. by exists fs.
    + unfold reify in Hrun.
      rewrite (bind_eq _ _ _ _ _ (deref_eq _ _ _ Ho)), Hk in Hrun.
      simpl in Hrun. rewrite bind_ret, bind_get_pop, Hbf in Hrun.
      simpl in Hrun. rewrite bind_put_pop in Hrun.
      apply bind_Ok in Hrun as (? & ? & Hc & _).
      unfold calc_fitness in Hc.
      erewrite bind_eq in Hc by (by apply deref_eq).
      by rewrite Hfs in Hc.
Qed.

Lemma evict_inv w indiv u w' :
  evict indiv w = Ok (u, w') →
  ∃ o, heap w !! indiv = Some o ∧ w' = evicted (key o) w.
Proof.
  intros Hrun.
  destruct (heap w !! indiv) as [o|] eqn:Ho.
  - rewrite (evict_eq _ _ _ Ho) in Hrun. injection Hrun as <-. by exists o.
  - unfold evict in Hrun. apply bind_Ok in Hrun as (? & ? & Hd & _).
    unfold deref in Hd. by rewrite Ho in Hd.
Qed.

(** *** The filter never forgets *)

Lemma seen_reified k' indiv o k fs w : seen k' w → seen k' (reified indiv o k fs w).
Proof. unfold seen. simpl. apply bf_update_mono. Qed.

Lemma seen_reified_key indiv o k fs w : seen k (reified indiv o k fs w).
Proof. unfold seen. simpl. apply bf_update_contains. set_solver. Qed.

Lemma seen_evicted k' k w : seen k' (evicted k w) ↔ seen k' w.
Proof. by destruct k. Qed.

Lemma seen_le_reify indiv : follows seen_le (reify indiv).
Proof.
  intros w b w' (o & k & _ & _ & [(_ & _ & ->)|(_ & _ & fs & _ & ->)])%reify_inv.
  - done.
  - intros k'. apply seen_reified.
Qed.

Lemma seen_le_evict indiv : follows seen_le (evict indiv).
Proof.
  intros w u w' (o & _ & ->)%evict_inv k'. by rewrite seen_evicted.
Qed.

Create HintDb seen_le discriminated.
#[local] Hint Resolve seen_le_reify seen_le_evict : seen_le.

Ltac seen_le_tac :=
  repeat first
    [ solve [auto 1 with seen_le nocore]
    | apply (follows_weaken same_population);
      [apply same_population_seen_le | solve [auto 1 with same_pop nocore]]
    | follows_step ].

Lemma seen_le_mutate self g : follows seen_le (mutate self g).
Proof. unfold mutate. seen_le_tac. Qed.

Lemma seen_le_breed self g mate : follows seen_le (breed self g mate).
Proof. unfold breed. seen_le_tac. Qed.

Lemma seen_le_Population_populate g : follows seen_le (Population_populate g).
Proof. unfold Population_populate. seen_le_tac. Qed.

#[local] Hint Resolve seen_le_mutate seen_le_breed seen_le_Population_populate : seen_le.

Lemma seen_le_boost_diversity g indiv r : follows seen_le (_boost_diversity g indiv r).
Proof. unfold _boost_diversity. seen_le_tac. Qed.

#[local] Hint Resolve seen_le_boost_diversity : seen_le.

Lemma seen_le_select_parents g c r : follows seen_le (_select_parents g c r).
Proof. unfold _select_parents. seen_le_tac. Qed.

#[local] Hint Resolve seen_le_select_parents : seen_le.

Lemma seen_le_next_generation g c r : follows seen_le (next_generation g c r).
Proof. unfold next_generation. seen_le_tac. Qed.

#[local] Hint Resolve seen_le_next_generation : seen_le.

Lemma seen_le_run_call c : follows seen_le (run_call c).
Proof. destruct c; simpl; unfold discard; seen_le_tac. Qed.

Lemma seen_le_run_calls cs : follows seen_le (run_calls cs).
Proof.
  apply follows_for_each; [typeclasses eauto|]. apply seen_le_run_call.
Qed.

(** ** Reification is at most once *)

Lemma reify_seen w indiv o k :
  heap w !! indiv = Some o → key o = Some k → seen k w →
  reify indiv w = Ok (false, w).
Proof.
  intros Ho Hk Hseen. unfold reify.
  rewrite (bind_eq _ _ _ _ _ (deref_eq _ _ _ Ho)), Hk. simpl.
  rewrite bind_ret, bind_get_pop. unfold seen in Hseen. by rewrite Hseen.
Qed.

(** C3. Once an individual with fingerprint [k] went through [reify],
    whatever the engine is asked to do next, [reify] on an individual that
    carries the same fingerprint returns false and leaves the world as it
    is: the exact store keeps its size and contents, the filter is not
    updated and no fitness is computed (the object of the candidate is
    not written). *)
Theorem reify_twice_rejected w indiv1 o1 k b1 w1 cs w2 indiv2 o2 :
  heap w !! indiv1 = Some o1 → key o1 = Some k →
  reify indiv1 w = Ok (b1, w1) →
  run_calls cs w1 = Ok (tt, w2) →
  heap w2 !! indiv2 = Some o2 → key o2 = Some k →
  reify indiv2 w2 = Ok (false, w2).
Proof.
  intros Ho1 Hk1 Hfirst Hcalls Ho2 Hk2.
  assert (Hseen1 : seen k w1).
  { apply reify_inv in Hfirst as (o & k' & Ho & Hk & Hcase).
    assert (o = o1) as -> by congruence. assert (k' = k) as -> by congruence.
    destruct Hcase as [(Hs & _ & ->)|(_ & _ & fs & _ & ->)]; [done|].
    apply seen_reified_key. }
  assert (Hseen2 : seen k w2) by (by eapply seen_le_run_calls).
  by eapply reify_seen.
Qed.

(** ** The fitness of an individual *)

Lemma Individual_calc_fitness_eq w self o fs :
  heap w !! self = Some o → _feature_set o = Some fs →
  Z.abs (sum fs - Individual_target) < float_limit →
  Individual_calc_fitness self w =
  Ok (tt, heap_put self (set_fitness (Some (fitness_of fs)) o) w).
Proof.
  intros Ho Hfs Hlim. unfold Individual_calc_fitness.
  rewrite (bind_eq _ _ _ _ _ (deref_eq _ _ _ Ho)), Hfs. simpl. rewrite bind_ret.
  unfold to_float. rewrite Z.abs_idemp.
  destruct (decide _) as [_|Hno]; [|done].
  by rewrite bind_ret.
Qed.

Lemma Individual_calc_fitness_overflow w self o fs :
  heap w !! self = Some o → _feature_set o = Some fs →
  float_limit ≤ Z.abs (sum fs - Individual_target) →
  Individual_calc_fitness self w = Raise OverflowError.
Proof.
  intros Ho Hfs Hlim. unfold Individual_calc_fitness.
  rewrite (bind_eq _ _ _ _ _ (deref_eq _ _ _ Ho)), Hfs. simpl. rewrite bind_ret.
  unfold to_float. rewrite Z.abs_idemp.
  destruct (decide _) as [Hlt|_]; [lia | done].
Qed.

(** C5, as the code has it.  On an individual bound to a feature set,
    [calc_fitness] converts [|sum(feature_set) - target|] to a float.  When
    that integer has a double, it stores
    [1 - |sum(feature_set) - target| / target], as the exact arithmetic of
    the engine does: exactly 1 when the sum is the target, never above 1,
    and negative (not clamped) when the sum is farther from the target than
    the target itself.  When it has none, [calc_fitness] raises
    [OverflowError]. *)
Theorem calc_fitness_value w self o fs :
  heap w !! self = Some o → _feature_set o = Some fs →
  let d := Z.abs (sum fs - Individual_target) in
  let f := (1 - float d / float Individual_target)%Qc in
  (d < float_limit →
   Individual_calc_fitness self w
   = Ok (tt, heap_put self (set_fitness (Some f) o) w) ∧
   calc_fitness self w = Individual_calc_fitness self w ∧
   (sum fs = Individual_target → f = 1%Qc) ∧
   (f ≤ 1)%Qc ∧
   (Individual_target < d → (f < 0)%Qc)) ∧
  (float_limit ≤ d → Individual_calc_fitness self w = Raise OverflowError).
Proof.
  intros Ho Hfs d f. split.
  - intros Hlim.
    assert (Hrun : Individual_calc_fitness self w
                   = Ok (tt, heap_put self (set_fitness (Some f) o) w))
      by exact (Individual_calc_fitness_eq w self o fs Ho Hfs Hlim).
    split_and!.
    + exact Hrun.
    + rewrite Hrun. exact (calc_fitness_eq w self o fs Ho Hfs).
    + apply fitness_of_exact.
    + apply fitness_of_le_1.
    + apply fitness_of_negative.
  - intros Hlim. exact (Individual_calc_fitness_overflow w self o fs Ho Hfs Hlim).
Qed.

(** ** The histogram on an empty population *)

Lemma get_part_hist_empty w : members w = ∅ → get_part_hist w = Ok ([], w).
Proof.
  intros Hm. unfold get_part_hist. rewrite bind_get_pop.
  unfold members in Hm. rewrite Hm. unfold values. rewrite map_to_list_empty.
  reflexivity.
Qed.

(** C10. On a population whose exact store is empty [get_fitness_cutoff]
    does not return: the loop body never runs and [return bin] reads a
    variable that was never bound. *)
Theorem get_fitness_cutoff_empty w selection_rate :
  members w = ∅ → get_fitness_cutoff selection_rate w = Raise UnboundLocalError.
Proof.
  intros Hm. unfold get_fitness_cutoff.
  by rewrite (bind_eq _ _ _ _ _ (get_part_hist_empty _ Hm)).
Qed.

(** ** [Counter] *)

Lemma occurrences_cons_eq x xs : occurrences x (x :: xs) = 1 + occurrences x xs.
Proof.
  unfold occurrences. rewrite filter_cons_True by done. simpl length. lia.
Qed.

Lemma occurrences_cons_ne x y xs : y ≠ x → occurrences x (y :: xs) = occurrences x xs.
Proof. intros Hne. unfold occurrences. by rewrite filter_cons_False. Qed.

Lemma occurrences_not_in x xs : x ∉ xs → occurrences x xs = 0.
Proof.
  induction xs as [|y xs IH]; [done|]. intros Hx.
  rewrite occurrences_cons_ne by (intros ->; apply Hx; left).
  apply IH. intros Hin. apply Hx. by right.
Qed.


Lemma Counter_fold_lookup xs (d : gmap Qc Z) x :
  fold_left (λ d x, <[x := default 0 (d !! x) + 1]> d) xs d !! x =
  if decide (x ∈ xs) then Some (default 0 (d !! x) + occurrences x xs) else d !! x.
Proof.
  revert d. induction xs as [|y xs IH]; intros d.
  - cbn [fold_left]. destruct (decide (x ∈ [])) as [Hin|_]; [|done].
    by apply not_elem_of_nil in Hin.
  - cbn [fold_left]. rewrite IH. destruct (decide (x = y)) as [->|Hne].
    + rewrite lookup_insert_eq, occurrences_cons_eq. simpl.
      rewrite (decide_True (P := y ∈ y :: xs)) by left.
      destruct (decide (y ∈ xs)) as [Hin|Hout].
      * f_equal; lia.
      * rewrite (occurrences_not_in _ _ Hout). f_equal; lia.
    + rewrite lookup_insert_ne by done.
      rewrite occurrences_cons_ne by done.
      destruct (decide (x ∈ xs)) as [Hin|Hout].
      * rewrite decide_True; [done | by right].
      * rewrite decide_False; [done|]. by intros [?|?]%elem_of_cons.
Qed.

Lemma Counter_lookup xs x :
  Counter xs !! x = if decide (x ∈ xs) then Some (occurrences x xs) else None.
Proof.
  unfold Counter. rewrite Counter_fold_lookup, lookup_empty. simpl.
  destruct (decide _); [f_equal; lia | done].
Qed.

Lemma total_Permutation l1 l2 : l1 ≡ₚ l2 → total l1 = total l2.
Proof.
  induction 1; simpl; lia.
Qed.

Lemma total_insert (m : gmap Qc Z) x v :
  total (map_to_list (<[x := v]> m)) = total (map_to_list m) - default 0 (m !! x) + v.
Proof.
  destruct (m !! x) as [old|] eqn:Hx; simpl.
  - rewrite <- (insert_delete_eq m).
    rewrite (total_Permutation _ _ (map_to_list_insert _ _ _ (lookup_delete_eq m x))).
    rewrite <- (total_Permutation _ _ (map_to_list_delete _ _ _ Hx)). simpl. lia.
  - rewrite (total_Permutation _ _ (map_to_list_insert _ _ _ Hx)). simpl. lia.
Qed.

Lemma Counter_snoc xs x :
  Counter (xs ++ [x]) = <[x := default 0 (Counter xs !! x) + 1]> (Counter xs).
Proof. unfold Counter. by rewrite fold_left_app. Qed.

Lemma total_Counter xs : total (map_to_list (Counter xs)) = Z.of_nat (length xs).
Proof.
  induction xs as [|x xs IH] using rev_ind.
  - unfold Counter. simpl. by rewrite map_to_list_empty.
  - rewrite Counter_snoc, total_insert, IH, length_app. simpl. lia.
Qed.

(** ** The order of the histogram *)

Global Instance tuple_ge_trans : Transitive tuple_ge.
Proof.
  intros x y z [Hxy|[Hxy Hxy']] [Hyz|[Hyz Hyz']]; unfold tuple_ge.
  - left. by apply Qclt_trans with (y.1).
  - left. by rewrite <- Hyz.
  - left. by rewrite Hxy.
  - right. split; [congruence | lia].
Qed.

Global Instance tuple_ge_total : Total tuple_ge.
Proof.
  intros x y. unfold tuple_ge.
  destruct (Qc_dec (x.1) (y.1)) as [[Hlt|Hgt]|Heq]; [by right; left | by left; left |].
  destruct (Z.le_ge_cases (x.2) (y.2)); [right; right | left; right]; split; done.
Qed.

Lemma tuple_ge_bins x y : tuple_ge x y → (y.1 ≤ x.1)%Qc.
Proof.
  intros [Hlt|[-> _]]; [by apply Qclt_le_weak | apply Qcle_refl].
Qed.

Lemma bins_descending_of_sorted hist :
  StronglySorted tuple_ge hist → NoDup hist.*1 → bins_descending hist.
Proof.
  unfold bins_descending. induction 1 as [|x hist Hs IH Hx]; simpl; intros Hnd.
  - constructor.
  - apply NoDup_cons in Hnd as [Hnotin Hnd]. constructor; [by apply IH|].
    apply Forall_forall. intros y Hy.
    destruct (proj1 (Forall_forall _ _) Hx y Hy) as [Hlt|[Heq _]]; [done|].
    exfalso. apply Hnotin. rewrite Heq. by apply list_elem_of_fmap_2.
Qed.

(** ** What [get_part_hist] computes *)

Lemma map_m_pure {A B} (f : A → M B) (g : A → B) l w :
  (∀ x, x ∈ l → f x w = Ok (g x, w)) → map_m f l w = Ok (g <$> l, w).
Proof.
  induction l as [|x l IH]; intros Hf; simpl; [done|].
  rewrite (bind_eq _ _ _ _ _ (Hf x ltac:(left))).
  rewrite (bind_eq _ _ _ _ _ (IH (λ y Hy, Hf y ltac:(by right)))).
  reflexivity.
Qed.

Lemma elem_of_values (d : gmap string loc) l : l ∈ values d ↔ ∃ k, d !! k = Some l.
Proof.
  unfold values. rewrite list_elem_of_fmap. split.
  - intros ([k l'] & -> & Hin). exists k. by apply elem_of_map_to_list.
  - intros (k & Hk). exists (k, l). split; [done|]. by apply elem_of_map_to_list.
Qed.

Lemma member_ok_fitness w k l :
  member_ok w k l → ∃ o f, heap w !! l = Some o ∧ fitness o = Some f.
Proof.
  unfold member_ok. destruct (heap w !! l) as [o|]; [|done].
  intros (_ & [f Hf] & _). by exists o, f.
Qed.

Lemma get_part_hist_eq w : members_ok w → get_part_hist w = Ok (part_hist w, w).
Proof.
  intros Hok. unfold get_part_hist. rewrite bind_get_pop.
  erewrite bind_eq; last first.
  { apply (map_m_pure _ (λ l, round (default 0%Qc (fitness_at w l))
                                (_hist_granularity (population w)))).
    intros l (k & Hk)%elem_of_values.
    destruct (member_ok_fitness _ _ _ (Hok k l Hk)) as (o & f & Ho & Hf).
    rewrite (bind_eq _ _ _ _ _ (deref_eq _ _ _ Ho)), Hf. simpl.
    rewrite bind_ret. unfold fitness_at. rewrite Ho. simpl. by rewrite Hf. }
  reflexivity.
Qed.

Lemma part_hist_Permutation w :
  part_hist w ≡ₚ map_to_list (Counter (rounded_fitnesses w)).
Proof. apply merge_sort_Permutation. Qed.

Lemma elem_of_part_hist w b c :
  (b, c) ∈ part_hist w ↔
  b ∈ rounded_fitnesses w ∧ c = occurrences b (rounded_fitnesses w).
Proof.
  rewrite part_hist_Permutation, elem_of_map_to_list, Counter_lookup.
  destruct (decide _) as [Hin|Hout]; split.
  - intros [= <-]. done.
  - intros [_ ->]. done.
  - done.
  - intros [? _]. done.
Qed.

Lemma part_hist_NoDup w : NoDup (part_hist w).*1.
Proof. rewrite part_hist_Permutation. apply NoDup_fst_map_to_list. Qed.

Lemma part_hist_descending w : bins_descending (part_hist w).
Proof.
  apply bins_descending_of_sorted; [|apply part_hist_NoDup].
  apply StronglySorted_merge_sort; apply _.
Qed.

Lemma part_hist_total w : total (part_hist w) = Z.of_nat (size (members w)).
Proof.
  rewrite (total_Permutation _ _ (part_hist_Permutation w)), total_Counter.
  unfold rounded_fitnesses, values. rewrite !length_fmap.
  by rewrite length_map_to_list.
Qed.

Lemma part_hist_nil w : part_hist w = [] ↔ members w = ∅.
Proof.
  split.
  - intros Hnil. apply map_size_empty_iff, Nat2Z.inj.
    by rewrite <- part_hist_total, Hnil.
  - intros Hm.
    assert (Hlen : total (part_hist w) = 0).
    { by rewrite part_hist_total, Hm, map_size_empty. }
    unfold part_hist, rounded_fitnesses, values in *.
    rewrite Hm, map_to_list_empty. reflexivity.
Qed.

Lemma member_ok_iff w k l :
  member_ok w k l ↔
  ∃ o fs, heap w !! l = Some o ∧ key o = Some k ∧ is_Some (fitness o) ∧
          _feature_set o = Some fs ∧ fs ≠ [].
Proof.
  unfold member_ok. destruct (heap w !! l) as [o|]; last first.
  { split; [done | by intros (? & ? & ? & _)]. }
  destruct (_feature_set o) as [fs|] eqn:Hfs; split.
  - intros (? & ? & ?). by exists o, fs.
  - intros (o' & fs' & [= <-] & ? & ? & Hfs' & ?). rewrite Hfs in Hfs'.
    by injection Hfs' as ->.
  - by intros (? & ? & ?).
  - intros (o' & fs' & [= <-] & ? & ? & Hfs' & ?). by rewrite Hfs in Hfs'.
Qed.

Lemma values_NoDup w : members_ok w → NoDup (values (members w)).
Proof.
  intros Hok. unfold values.
  apply NoDup_fmap_2_strong; [|apply NoDup_map_to_list].
  intros [k1 l1] [k2 l2] H1%elem_of_map_to_list H2%elem_of_map_to_list Heq.
  simpl in Heq. subst l2.
  apply Hok, member_ok_iff in H1 as (o1 & _ & Ho1 & Hk1 & _).
  apply Hok, member_ok_iff in H2 as (o2 & _ & Ho2 & Hk2 & _).
  f_equal. congruence.
Qed.

(** C9. [get_part_hist] returns the (bin, count) pairs whose bins are the
    fitness values of the members rounded to [hist_granularity] places (the
    nearest multiple of [10 ** -hist_granularity], halves away from zero),
    each with the number of members whose fitness rounds to it, bins in
    descending order; the counts add up to the size of the exact store. *)
Theorem get_part_hist_spec w :
  members_ok w →
  let places := _hist_granularity (population w) in
  ∃ hist, get_part_hist w = Ok (hist, w) ∧
    (∀ b, b ∈ hist.*1 ↔
       ∃ k l f, members w !! k = Some l ∧ fitness_at w l = Some f ∧
                rounds_to places f b) ∧
    (∀ b c, (b, c) ∈ hist →
       ∃ ls, NoDup ls ∧
             (∀ l, l ∈ ls ↔
                is_member w l ∧
                ∃ f, fitness_at w l = Some f ∧ rounds_to places f b) ∧
             c = Z.of_nat (length ls)) ∧
    bins_descending hist ∧
    total hist = Z.of_nat (size (members w)).
Proof.
  intros Hok places. exists (part_hist w). split_and!.
  - by apply get_part_hist_eq.
  - intros b. rewrite list_elem_of_fmap. split.
    + intros ([b' c] & -> & [Hin _]%elem_of_part_hist). simpl.
      unfold rounded_fitnesses in Hin.
      apply list_elem_of_fmap in Hin as (l & -> & (k & Hk)%elem_of_values).
      destruct (member_ok_fitness _ _ _ (Hok k l Hk)) as (o & f & Ho & Hf).
      exists k, l, f. unfold fitness_at. rewrite Ho. simpl. rewrite Hf.
      split_and!; [done | done |]. by apply round_rounds_to.
    + intros (k & l & f & Hk & Hf & <-%round_rounds_to).
      exists (round f places, occurrences (round f places) (rounded_fitnesses w)).
      split; [done|]. apply elem_of_part_hist. split; [|done].
      unfold rounded_fitnesses. apply list_elem_of_fmap. exists l.
      rewrite Hf. split; [done|]. apply elem_of_values. by exists k.
  - intros b c [_ ->]%elem_of_part_hist.
    exists (filter (λ l, round (default 0%Qc (fitness_at w l)) places = b)
              (values (members w))).
    split_and!.
    + by apply NoDup_filter, values_NoDup.
    + intros l. rewrite list_elem_of_filter, elem_of_values. split.
      * intros [Hb [k Hk]]. split; [by exists k|].
        destruct (member_ok_fitness _ _ _ (Hok k l Hk)) as (o & f & Ho & Hf).
        assert (Hfit : fitness_at w l = Some f)
          by (unfold fitness_at; rewrite Ho; exact Hf).
        exists f. split; [done|]. apply round_rounds_to.
        by rewrite Hfit in Hb.
      * intros [Hmem (f & Hfit & Hb%round_rounds_to)]. split; [|exact Hmem].
        by rewrite Hfit.
    + unfold occurrences, rounded_fitnesses. by rewrite filter_fmap_length.
  - apply part_hist_descending.
  - apply part_hist_total.
Qed.

(** ** The loop of [get_fitness_cutoff] *)

Lemma cumulative_0 b c hist : cumulative ((b, c) :: hist) 0 = c.
Proof. unfold cumulative. simpl. lia. Qed.

Lemma cumulative_S b c hist i :
  cumulative ((b, c) :: hist) (S i) = c + cumulative hist i.
Proof. unfold cumulative. reflexivity. Qed.

Lemma reaches_S n r s b c hist i :
  reaches n r s ((b, c) :: hist) (S i) ↔ reaches n r (s + c) hist i.
Proof. unfold reaches. by rewrite cumulative_S, Z.add_assoc. Qed.

Lemma cutoff_loop_break hist n r s cur w :
  cutoff_loop hist n r s true cur w =
  Ok (match hist with [] => cur | bc :: _ => Some bc.1 end, w).
Proof. by destruct hist as [|[b c] hist]. Qed.

Lemma cutoff_loop_spec hist n r w :
  n ≠ 0 → ∀ s cur,
  ∃ res, cutoff_loop hist n r s false cur w = Ok (res, w) ∧
    (hist = [] → res = cur) ∧
    (∀ i, reaches n r s hist i → (∀ j, (j < i)%nat → ¬ reaches n r s hist j) →
          (S i < length hist)%nat → res = fst <$> hist !! S i) ∧
    ((∀ i, (S i < length hist)%nat → ¬ reaches n r s hist i) →
     hist ≠ [] → res = last hist.*1).
Proof.
  intros Hn. apply Z.eqb_neq in Hn.
  induction hist as [|[b c] hist IH]; intros s cur.
  - exists cur. split_and!; [done|done| |done].
    intros i _ _ Hlen. simpl in Hlen. lia.
  - cbn [cutoff_loop]. rewrite Hn.
    destruct (Qc_geb (float (s + c) / float n) r) eqn:Hflag.
    + (* the rate is reached on this bin: the next iteration breaks *)
      assert (H0 : reaches n r s ((b, c) :: hist) 0).
      { unfold reaches. by rewrite cumulative_0. }
      rewrite cutoff_loop_break. eexists. split; [done|]. split_and!.
      * done.
      * intros i Hi Hmin Hlen. destruct i as [|i].
        -- destruct hist as [|[b' c'] hist]; [simpl in Hlen; lia | done].
        -- by destruct (Hmin 0%nat ltac:(lia)).
      * intros Hnone _. destruct hist as [|bc hist]; [done|].
        destruct (Hnone 0%nat); [simpl; lia | done].
    + assert (H0 : ¬ reaches n r s ((b, c) :: hist) 0).
      { unfold reaches. rewrite cumulative_0. by rewrite Hflag. }
      destruct (IH (s + c) (Some b)) as (res & Hrun & Hnil & Hfirst & Hlast).
      exists res. split; [done|]. split_and!.
      * done.
      * intros i Hi Hmin Hlen. destruct i as [|i]; [done|].
        simpl. apply Hfirst.
        -- by apply (proj1 (reaches_S n r s b c hist i)).
        -- intros j Hj Hr. apply (Hmin (S j)); [lia|].
           by apply (proj2 (reaches_S _ _ _ _ _ _ _)).
        -- simpl in Hlen. lia.
      * intros Hnone _. destruct hist as [|bc hist].
        -- by rewrite Hnil.
        -- rewrite Hlast; [done| |done].
           intros i Hlen Hr. apply (Hnone (S i)); [simpl in *; lia|].
           by apply (proj2 (reaches_S _ _ _ _ _ _ _)).
Qed.

Lemma cutoff_loop_result hist n r s bn cur w res w' :
  cutoff_loop hist n r s bn cur w = Ok (res, w') →
  res = cur ∨ ∃ b, res = Some b ∧ b ∈ hist.*1.
Proof.
  revert s bn cur. induction hist as [|[b c] hist IH]; intros s bn cur.
  - intros [= <- _]. by left.
  - cbn [cutoff_loop]. destruct bn.
    + intros [= <- _]. right. exists b. split; [done | left].
    + destruct (n =? 0); [done|]. intros Hrun.
      right. destruct (IH _ _ _ Hrun) as [->|(b' & -> & Hin)].
      * exists b. split; [done | left].
      * exists b'. split; [done | by right].
Qed.


Lemma cutoff_loop_result_cons bc hist n r s bn cur w res w' :
  cutoff_loop (bc :: hist) n r s bn cur w = Ok (res, w') →
  ∃ b, res = Some b ∧ b ∈ (bc :: hist).*1.
Proof.
  destruct bc as [b c]. cbn [cutoff_loop]. destruct bn.
  - intros [= <- _]. exists b. split; [done | left].
  - destruct (n =? 0); [done|]. intros Hrun.
    destruct (cutoff_loop_result _ _ _ _ _ _ _ _ _ Hrun) as [->|(b' & -> & Hin)].
    + exists b. split; [done | left].
    + exists b'. split; [done | by right].
Qed.

(** ** The fitness cutoff *)




(** ** The termination test *)



(** ** Crossover *)

Lemma fresh_loc_ne w l o : heap w !! l = Some o → fresh_loc w ≠ l.
Proof. intros Ho Heq. rewrite <- Heq, fresh_loc_None in Ho. done. Qed.

Lemma half_nat (n : nat) : Z.to_nat (Z.of_nat n / 2) = (n / 2)%nat.
Proof.
  change 2 with (Z.of_nat 2). rewrite <- (Nat2Z.inj_div n 2). apply Nat2Z.id.
Qed.

Lemma construct_eq {B} g fs (k : loc → M B) w :
  bind Individual_init (λ x, bind (Individual_populate x g fs) (λ _, k x)) w
  = k (fresh_loc w) (constructed g fs w).
Proof.
  rewrite (bind_eq _ _ _ _ _ (Individual_init_eq w)).
  erewrite bind_eq by (apply Individual_populate_eq, heap_put_lookup).
  by rewrite heap_put_put.
Qed.

Lemma breed_eq w self g mate o m fs mfs :
  heap w !! self = Some o → _feature_set o = Some fs →
  heap w !! mate = Some m → _feature_set m = Some mfs →
  breed self g mate w =
  bind (reify (fresh_loc w)) (λ _, ret tt) (constructed g (crossover fs mfs) w).
Proof.
  intros Ho Hfs Hm Hmfs. unfold breed.
  rewrite (bind_eq _ _ _ _ _ (deref_eq _ _ _ Ho)), Hfs. simpl. rewrite bind_ret.
  rewrite (bind_eq _ _ _ _ _ (Individual_init_eq w)).
  erewrite bind_eq; last first.
  { apply deref_eq. rewrite heap_put_lookup_ne by (by eapply fresh_loc_ne). exact Ho. }
  rewrite Hfs. simpl. rewrite bind_ret.
  erewrite bind_eq; last first.
  { apply deref_eq. rewrite heap_put_lookup_ne by (by eapply fresh_loc_ne). exact Hm. }
  rewrite Hmfs. simpl. rewrite bind_ret.
  erewrite bind_eq by (apply Individual_populate_eq, heap_put_lookup).
  rewrite heap_put_put, half_nat. reflexivity.
Qed.

Lemma sorted_length l : length (sorted l) = length l.
Proof. unfold sorted. by rewrite merge_sort_Permutation. Qed.

Lemma crossover_length fs mfs :
  length fs = length mfs → length (crossover fs mfs) = length fs.
Proof.
  intros Hlen. unfold crossover.
  rewrite sorted_length, length_app, length_drop, length_take, <- Hlen.
  pose proof (Nat.Div0.div_le_upper_bound (length fs) 2 (length fs)) as Hdiv.
  assert (length fs / 2 ≤ length fs)%nat by (apply Nat.Div0.div_le_upper_bound; lia).
  lia.
Qed.

Lemma members_seen_lookup w k l : members_seen w → members w !! k = Some l → seen k w.
Proof. intros Hseen Hk. exact (Hseen k l Hk). Qed.


(** ** Mutation *)

Lemma randint_eq a b w :
  a ≤ b → randint a b w = Ok (next_randint a b w, set_cursor (S (cursor w)) w).
Proof.
  intros Hab. unfold randint.
  destruct (b <? a) eqn:Hlt; [apply Z.ltb_lt in Hlt; lia | done].
Qed.

Lemma mutate_eq w self g o fs :
  heap w !! self = Some o → _feature_set o = Some fs → fs ≠ [] →
  mutate self g w = Ok (tt, mutated self g o fs w).
Proof.
  intros Ho Hfs Hne. unfold mutate.
  rewrite (bind_eq _ _ _ _ _ (deref_eq _ _ _ Ho)), Hfs. simpl. rewrite bind_ret.
  assert (Hlen : 0 ≤ Z.of_nat (length fs) - 1).
  { destruct fs; [done | simpl length; lia]. }
  rewrite (bind_eq _ _ _ _ _ (randint_eq _ _ _ Hlen)).
  erewrite bind_eq by (by apply randint_eq).
  erewrite bind_eq by (apply modify_eq; exact Ho).
  rewrite construct_eq.
  set (mfs := <[_ := _]> fs).
  set (w2 := heap_put self _ _).
  assert (Hchild : heap (constructed g (sorted mfs) w2) !! fresh_loc w2
                   = Some (new_individual g (sorted mfs))) by apply heap_put_lookup.
  unfold bind at 1.
  rewrite (reify_eq _ _ _ (unique_key (sorted mfs)) (sorted mfs) Hchild eq_refl eq_refl).
  unfold mutated. fold mfs. fold w2.
  change (_bf (population (constructed g (sorted mfs) w2))) with (_bf (population w)).
  destruct (bf_contains (unique_key (sorted mfs)) (_bf (population w))); [done|].
  assert (Hself : heap w2 !! self = Some (set_feature_set (Some mfs) o))
    by apply heap_put_lookup.
  rewrite (evict_eq _ _ (set_feature_set (Some mfs) o)); [reflexivity|].
  simpl. rewrite lookup_insert_ne by (by eapply fresh_loc_ne).
  rewrite lookup_insert_ne by (by eapply fresh_loc_ne). exact Hself.
Qed.

Lemma boost_diversity_eq w g indiv r o fs :
  heap w !! indiv = Some o → _feature_set o = Some fs → fs ≠ [] →
  _boost_diversity g indiv r w = Ok (tt, boosted indiv g r o fs w).
Proof.
  intros Ho Hfs Hne. unfold _boost_diversity, random.
  rewrite bind_assoc. unfold bind at 1, draw. rewrite bind_ret.
  unfold boosted. destruct (Qc_gtb r _).
  - by apply mutate_eq.
  - by apply evict_eq.
Qed.

(** ** The invariant and the steps of a generation *)

Lemma bound_iff w l :
  bound w l ↔
  ∃ o fs, heap w !! l = Some o ∧ is_Some (key o) ∧ _feature_set o = Some fs ∧ fs ≠ [].
Proof.
  unfold bound. destruct (heap w !! l) as [o|]; last first.
  { split; [done | by intros (? & ? & ? & _)]. }
  destruct (_feature_set o) as [fs|] eqn:Hfs; split.
  - intros (? & ?). by exists o, fs.
  - intros (o' & fs' & [= <-] & ? & Hfs' & ?). rewrite Hfs in Hfs'.
    by injection Hfs' as ->.
  - by intros (? & ?).
  - intros (o' & fs' & [= <-] & ? & Hfs' & ?). by rewrite Hfs in Hfs'.
Qed.

Lemma member_ok_bound w k l : member_ok w k l → bound w l.
Proof.
  rewrite member_ok_iff, bound_iff. intros (o & fs & ? & Hk & ? & ? & ?).
  exists o, fs. split_and!; try done; by rewrite Hk.
Qed.

Global Instance bound_le_preorder : PreOrder bound_le.
Proof. split; [by intros w l | intros w1 w2 w3 H12 H23 l Hl; auto]. Qed.

Lemma bound_le_heap_put w l o o' fs' :
  heap w !! l = Some o → (is_Some (key o) → is_Some (key o')) →
  _feature_set o' = Some fs' → fs' ≠ [] →
  bound_le w (heap_put l o' w).
Proof.
  intros Ho Hkey Hfs' Hne l'. rewrite !bound_iff.
  intros (o1 & fs1 & Ho1 & Hk1 & Hfs1 & Hne1).
  destruct (decide (l = l')) as [<-|Hll].
  - exists o', fs'. rewrite heap_put_lookup. split_and!; try done.
    apply Hkey. by assert (o1 = o) as -> by congruence.
  - exists o1, fs1. by rewrite heap_put_lookup_ne.
Qed.

Lemma bound_le_constructed w g fs : bound_le w (constructed g fs w).
Proof.
  intros l. rewrite !bound_iff. intros (o & fs1 & Ho & ?).
  exists o, fs1. unfold constructed.
  rewrite heap_put_lookup_ne by (by eapply fresh_loc_ne). done.
Qed.

Lemma bound_le_reified w indiv o k fs :
  heap w !! indiv = Some o → _feature_set o = Some fs → fs ≠ [] →
  bound_le w (reified indiv o k fs w).
Proof.
  intros Ho Hfs Hne l Hl.
  apply (bound_le_heap_put w indiv o (set_fitness (Some (fitness_of fs)) o) fs
           Ho (λ H, H) Hfs Hne l) in Hl.
  exact Hl.
Qed.

Lemma bound_le_evicted w k : bound_le w (evicted k w).
Proof. intros l. by destruct k. Qed.

Lemma members_ok_heap_put w l o' :
  members_ok w →
  (∀ k, members w !! k = Some l → member_ok (heap_put l o' w) k l) →
  members_ok (heap_put l o' w).
Proof.
  intros Hok Hl k l' Hk. destruct (decide (l' = l)) as [->|Hne].
  - by apply Hl.
  - pose proof (Hok k l' Hk) as Hm. unfold member_ok in *.
    by rewrite heap_put_lookup_ne.
Qed.

Lemma sound_heap_put_in_place w l o o' fs' :
  sound w → heap w !! l = Some o →
  key o' = key o → fitness o' = fitness o →
  _feature_set o' = Some fs' → fs' ≠ [] →
  sound (heap_put l o' w).
Proof.
  intros [Hok Hseen] Ho Hkey Hfit Hfs' Hne. split; [|exact Hseen].
  apply members_ok_heap_put; [done|]. intros k Hk.
  apply member_ok_iff. exists o', fs'. rewrite heap_put_lookup.
  apply Hok, member_ok_iff in Hk as (o1 & fs1 & Ho1 & Hk1 & Hf1 & _).
  assert (o1 = o) as -> by congruence.
  split_and!; try done; congruence.
Qed.

Lemma sound_constructed w g fs : sound w → sound (constructed g fs w).
Proof.
  intros [Hok Hseen]. split; [|exact Hseen].
  apply members_ok_heap_put; [done|]. intros k Hk.
  apply Hok, member_ok_iff in Hk as (o1 & fs1 & Ho1 & _).
  by rewrite fresh_loc_None in Ho1.
Qed.

Lemma sound_reified w indiv o k fs :
  sound w → heap w !! indiv = Some o → key o = Some k →
  _feature_set o = Some fs → fs ≠ [] →
  sound (reified indiv o k fs w).
Proof.
  intros [Hok Hseen] Ho Hk Hfs Hne. split.
  - intros k' l'. unfold members. simpl. intros Hk'.
    apply member_ok_iff. simpl.
    destruct (decide (l' = indiv)) as [->|Hl].
    + exists (set_fitness (Some (fitness_of fs)) o), fs.
      rewrite lookup_insert_eq. split_and!; try done. simpl.
      destruct (decide (k' = k)) as [->|Hkk]; [done|].
      rewrite lookup_insert_ne in Hk' by done.
      apply Hok, member_ok_iff in Hk' as (o1 & fs1 & Ho1 & Hk1 & _). congruence.
    + destruct (decide (k' = k)) as [->|Hkk].
      { rewrite lookup_insert_eq in Hk'. congruence. }
      rewrite lookup_insert_ne in Hk' by done.
      apply Hok, member_ok_iff in Hk' as (o1 & fs1 & Ho1 & Hrest).
      exists o1, fs1. by rewrite lookup_insert_ne.
  - intros k' l'. unfold members. simpl. intros Hk'.
    destruct (decide (k' = k)) as [->|Hkk].
    + apply seen_reified_key.
    + rewrite lookup_insert_ne in Hk' by done.
      apply seen_reified. exact (Hseen k' l' Hk').
Qed.

Lemma sound_evicted w k : sound w → sound (evicted k w).
Proof.
  intros [Hok Hseen]. destruct k as [k|]; [|done]. split.
  - intros k' l'. unfold members. simpl. intros Hk'.
    apply lookup_delete_Some in Hk' as [_ Hk']. exact (Hok k' l' Hk').
  - intros k' l'. unfold members. simpl. intros Hk'.
    apply lookup_delete_Some in Hk' as [_ Hk']. exact (Hseen k' l' Hk').
Qed.

Lemma insert_nonempty {A} (l : list A) i x : l ≠ [] → <[i := x]> l ≠ [].
Proof.
  intros Hne Hnil. apply (f_equal length) in Hnil.
  rewrite length_insert in Hnil. by destruct l.
Qed.

Lemma sorted_nonempty l : l ≠ [] → sorted l ≠ [].
Proof.
  intros Hne Hnil. apply (f_equal length) in Hnil.
  rewrite sorted_length in Hnil. by destruct l.
Qed.

Lemma sound_mutated w self g o fs :
  sound w → heap w !! self = Some o → _feature_set o = Some fs → fs ≠ [] →
  sound (mutated self g o fs w).
Proof.
  intros Hsound Ho Hfs Hne. unfold mutated.
  set (mfs := <[_ := _]> fs).
  set (w2 := heap_put self _ _).
  assert (Hmfs : mfs ≠ []) by (by apply insert_nonempty).
  assert (Hw2 : sound w2).
  { apply (sound_heap_put_in_place _ self o _ mfs); try done. }
  destruct (bf_contains _ _).
  - by apply sound_constructed.
  - apply sound_evicted, sound_reified.
    + by apply sound_constructed.
    + apply heap_put_lookup.
    + done.
    + done.
    + by apply sorted_nonempty.
Qed.

Lemma bound_le_mutated w self g o fs :
  heap w !! self = Some o → _feature_set o = Some fs → fs ≠ [] →
  bound_le w (mutated self g o fs w).
Proof.
  intros Ho Hfs Hne. unfold mutated.
  set (mfs := <[_ := _]> fs).
  set (w2 := heap_put self _ _).
  assert (Hmfs : mfs ≠ []) by (by apply insert_nonempty).
  assert (Hw2 : bound_le w w2).
  { intros l Hl.
    apply (bound_le_heap_put
             (set_cursor (S (cursor (set_cursor (S (cursor w)) w)))
                (set_cursor (S (cursor w)) w)) self o _ mfs); try done. }
  destruct (bf_contains _ _).
  - etransitivity; [exact Hw2 | apply bound_le_constructed].
  - etransitivity; [exact Hw2|].
    etransitivity; [apply bound_le_constructed|].
    etransitivity; [|apply bound_le_evicted].
    apply bound_le_reified; [apply heap_put_lookup | done | by apply sorted_nonempty].
Qed.

Lemma sound_boosted w indiv g r o fs :
  sound w → heap w !! indiv = Some o → _feature_set o = Some fs → fs ≠ [] →
  sound (boosted indiv g r o fs w).
Proof.
  intros Hsound Ho Hfs Hne. unfold boosted. destruct (Qc_gtb _ _).
  - by apply sound_mutated.
  - by apply sound_evicted.
Qed.

Lemma bound_le_boosted w indiv g r o fs :
  heap w !! indiv = Some o → _feature_set o = Some fs → fs ≠ [] →
  bound_le w (boosted indiv g r o fs w).
Proof.
  intros Ho Hfs Hne. unfold boosted. destruct (Qc_gtb _ _).
  - by apply (bound_le_mutated (set_cursor _ w)).
  - apply (bound_le_evicted (set_cursor _ w)).
Qed.

Lemma n_pop_boosted w indiv g r o fs :
  n_pop (population (boosted indiv g r o fs w)) = n_pop (population w).
Proof.
  unfold boosted, mutated, evicted, reified.
  repeat case_match; reflexivity.
Qed.

(** The diversity pass: every unfit individual is mutated or evicted. *)
Lemma diversity_pass g r poor_fit w :
  sound w → Forall (bound w) poor_fit →
  ∃ w', for_each poor_fit (λ indiv, _boost_diversity g indiv r) w = Ok (tt, w') ∧
        sound w' ∧ bound_le w w' ∧
        n_pop (population w') = n_pop (population w).
Proof.
  revert w. induction poor_fit as [|x poor_fit IH]; intros w Hsound Hbound.
  - exists w. by split_and!.
  - apply Forall_cons in Hbound as [Hx Hrest].
    apply bound_iff in Hx as (o & fs & Ho & _ & Hfs & Hne).
    pose proof (bound_le_boosted w x g r o fs Ho Hfs Hne) as Hle.
    destruct (IH (boosted x g r o fs w)) as (w' & Hrun & Hs' & Hle' & Hn).
    { by apply sound_boosted. }
    { eapply Forall_impl; [exact Hrest | intros l; apply Hle]. }
    exists w'. split_and!.
    + cbn [for_each].
      by rewrite (bind_eq _ _ _ _ _ (boost_diversity_eq _ g _ r _ _ Ho Hfs Hne)).
    + done.
    + by etransitivity.
    + by rewrite Hn, n_pop_boosted.
Qed.

Lemma select_parents_total g c r w :
  sound w →
  ∃ w1, _select_parents g c r w = Ok (values (members w1), w1) ∧
        sound w1 ∧ n_pop (population w1) = n_pop (population w).
Proof.
  intros Hsound. pose proof Hsound as [Hok _].
  set (part := λ x : loc, (fitness_gt (fitness_at w x) c, x)).
  destruct (diversity_pass g r
              (filter (λ x, x.1 = false) (part <$> values (members w))).*2 w Hsound)
    as (w1 & Hrun & Hs1 & _ & Hn).
  { apply Forall_forall. intros l Hl.
    apply list_elem_of_fmap in Hl as ([b l'] & -> & Hl).
    apply list_elem_of_filter in Hl as [_ Hl].
    apply list_elem_of_fmap in Hl as (l'' & [= _ ->] & (k & Hk)%elem_of_values).
    eapply member_ok_bound, Hok, Hk. }
  exists w1. split_and!; [|done..].
  unfold _select_parents. rewrite bind_get_pop.
  erewrite bind_eq; last first.
  { apply (map_m_pure _ part). intros l (k & Hk)%elem_of_values.
    apply Hok, member_ok_iff in Hk as (o & fs & Ho & _).
    rewrite (bind_eq _ _ _ _ _ (deref_eq _ _ _ Ho)).
    unfold part, fitness_at. rewrite Ho. reflexivity. }
  rewrite (bind_eq _ _ _ _ _ Hrun). reflexivity.
Qed.

(** ** Sampling and breeding *)

Lemma sample2_spec (pool : list loc) w :
  (2 ≤ length pool)%nat →
  ∃ fm, sample2 pool w = Ok (fm, set_cursor (S (S (cursor w))) w) ∧
        distinct_parents pool fm.
Proof.
  intros Hlen. unfold sample2.
  destruct (length pool <? 2)%nat eqn:Hlt; [apply Nat.ltb_lt in Hlt; lia|].
  unfold bind at 1, draw. unfold bind at 1. cbn [cursor set_cursor entropy].
  set (n := length pool).
  set (j1 := (entropy w (cursor w) mod n)%nat).
  set (j2 := (entropy w (S (cursor w)) mod (n - 1))%nat).
  assert (Hj1 : (j1 < n)%nat) by (apply Nat.mod_upper_bound; lia).
  assert (Hj2 : (j2 < n - 1)%nat) by (apply Nat.mod_upper_bound; lia).
  destruct (lookup_lt_is_Some_2 pool (n - 1)) as [y Hy]; [lia|].
  destruct (lookup_lt_is_Some_2 pool j1) as [x1 Hx1]; [done|].
  destruct (lookup_lt_is_Some_2 pool j2) as [x2 Hx2]; [lia|].
  rewrite Hy, Hx1.
  destruct (decide (j1 = j2)) as [Heq|Hne].
  - rewrite <- Heq, list_lookup_insert_eq by done.
    exists (x1, y). split; [done|].
    exists j1, (n - 1)%nat. split_and!; [lia | done..].
  - rewrite list_lookup_insert_ne, Hx2 by done.
    exists (x1, x2). split; [done|]. by exists j1, j2.
Qed.

Lemma sample2_short (pool : list loc) w :
  (length pool < 2)%nat → sample2 pool w = Raise ValueError.
Proof.
  intros Hlen. unfold sample2.
  by destruct (length pool <? 2)%nat eqn:Hlt; [|apply Nat.ltb_ge in Hlt; lia].
Qed.

Lemma samples_spec (pool : list loc) n w :
  (2 ≤ length pool)%nat →
  ∃ pairs w2, map_m (λ _ : unit, sample2 pool) (replicate n tt) w = Ok (pairs, w2) ∧
              length pairs = n ∧ Forall (distinct_parents pool) pairs ∧
              heap w2 = heap w ∧ population w2 = population w.
Proof.
  intros Hlen. revert w. induction n as [|n IH]; intros w.
  - exists [], w. by split_and!.
  - destruct (sample2_spec pool w Hlen) as (fm & Hfm & Hd).
    destruct (IH (set_cursor (S (S (cursor w))) w)) as (pairs & w2 & Hrun & Hl & Hf & Hh & Hp).
    exists (fm :: pairs), w2. split_and!.
    + cbn [replicate map_m].
      by rewrite (bind_eq _ _ _ _ _ Hfm), (bind_eq _ _ _ _ _ Hrun).
    + simpl. by rewrite Hl.
    + by constructor.
    + by rewrite Hh.
    + by rewrite Hp.
Qed.

Lemma samples_short (pool : list loc) n w :
  (length pool < 2)%nat → (0 < n)%nat →
  map_m (λ _ : unit, sample2 pool) (replicate n tt) w = Raise ValueError.
Proof.
  intros Hlen Hn. destruct n as [|n]; [lia|]. cbn [replicate map_m].
  by rewrite (bind_Raise _ _ _ _ (sample2_short pool w Hlen)).
Qed.

Lemma breed_total w self g mate :
  bound w self → bound w mate →
  ∃ w', breed self g mate w = Ok (tt, w') ∧ bound_le w w' ∧ (sound w → sound w').
Proof.
  intros (o & fs & Ho & _ & Hfs & Hne)%bound_iff (m & mfs & Hm & _ & Hmfs & _)%bound_iff.
  rewrite (breed_eq _ _ _ _ _ _ _ _ Ho Hfs Hm Hmfs).
  set (cfs := crossover fs mfs).
  assert (Hchild : heap (constructed g cfs w) !! fresh_loc w = Some (new_individual g cfs))
    by apply heap_put_lookup.
  assert (Hcfs : cfs ≠ []).
  { unfold cfs, crossover. apply sorted_nonempty.
    intros Hnil. apply (f_equal length) in Hnil.
    rewrite length_app, length_drop in Hnil. cbn [length] in Hnil.
    assert (length fs ≠ 0)%nat by (by destruct fs).
    assert (length fs / 2 < length fs)%nat by (apply Nat.div_lt; lia).
    lia. }
  unfold bind.
  rewrite (reify_eq _ _ _ (unique_key cfs) cfs Hchild eq_refl eq_refl).
  destruct (bf_contains _ _).
  - eexists. split_and!; [done | apply bound_le_constructed | apply sound_constructed].
  - eexists. split_and!; [done | |].
    + etransitivity; [apply bound_le_constructed|].
      by apply bound_le_reified.
    + intros Hsound. apply sound_reified; try done. by apply sound_constructed.
Qed.

Lemma breeding_total g pairs w :
  Forall (λ fm, bound w fm.1 ∧ bound w fm.2) pairs →
  ∃ w', for_each pairs (λ fm, breed fm.1 g fm.2) w = Ok (tt, w') ∧
        (sound w → sound w').
Proof.
  revert w. induction pairs as [|[f m] pairs IH]; intros w Hb.
  - by exists w.
  - apply Forall_cons in Hb as [[Hf Hm] Hrest].
    destruct (breed_total w f g m Hf Hm) as (w1 & Hrun & Hle & Hs).
    destruct (IH w1) as (w' & Hrun' & Hs').
    { eapply Forall_impl; [exact Hrest|]. intros fm [H1 H2]. split; by apply Hle. }
    exists w'. cbn [for_each]. rewrite (bind_eq _ _ _ _ _ Hrun). split; [done | auto].
Qed.

Lemma bound_same_heap w w' l : heap w' = heap w → bound w l → bound w' l.
Proof. intros Hh. unfold bound. by rewrite Hh. Qed.

Lemma distinct_parents_in pool fm :
  distinct_parents pool fm → fm.1 ∈ pool ∧ fm.2 ∈ pool.
Proof.
  intros (i & j & _ & Hi & Hj). split; by eapply list_elem_of_lookup_2.
Qed.

(** ** One generation *)


(** With a pool of fewer than two members and members wanting, [sample]
    raises before anything is bred. *)
Lemma next_generation_short_pool w g cutoff rate :
  sound w →
  ∃ parents w1,
    _select_parents g cutoff rate w = Ok (parents, w1) ∧
    (0 < n_pop (population w1) - Z.of_nat (length parents) →
     (length parents < 2)%nat →
     next_generation g cutoff rate w = Raise ValueError).
Proof.
  intros Hsound.
  destruct (select_parents_total g cutoff rate w Hsound) as (w1 & Hsel & _).
  exists (values (members w1)), w1. split; [done|].
  intros Hd Hlen. unfold next_generation.
  rewrite (bind_eq _ _ _ _ _ Hsel), bind_get_pop.
  apply bind_Raise, samples_short; [done | lia].
Qed.

(** ** Mutation writes into the caller *)

Lemma mutate_in_place w self g o fs :
  heap w !! self = Some o → _feature_set o = Some fs → fs ≠ [] →
  ∃ w' pos v,
    mutate self g w = Ok (tt, w') ∧
    0 ≤ pos < Z.of_nat (length fs) ∧
    heap w' !! self = Some (set_feature_set (Some (<[Z.to_nat pos := v]> fs)) o).
Proof.
  intros Ho Hfs Hne.
  exists (mutated self g o fs w), (next_randint 0 (Z.of_nat (length fs) - 1) w),
    (next_randint Individual_min Individual_max (set_cursor (S (cursor w)) w)).
  assert (Hpos : 0 ≤ next_randint 0 (Z.of_nat (length fs) - 1) w < Z.of_nat (length fs)).
  { assert (length fs ≠ 0)%nat by (by destruct fs).
    unfold next_randint.
    pose proof (Z.mod_pos_bound (Z.of_nat (entropy w (cursor w)))
                  (Z.of_nat (length fs) - 1 - 0 + 1)). lia. }
  split_and!.
  - by apply mutate_eq.
  - apply Hpos.
  - apply Hpos.
  - unfold mutated.
    set (mfs := <[_ := _]> fs). set (w2 := heap_put self _ _).
    assert (Hself : heap w2 !! self = Some (set_feature_set (Some mfs) o))
      by apply heap_put_lookup.
    assert (Hfresh : fresh_loc w2 ≠ self) by (by eapply fresh_loc_ne).
    destruct (bf_contains _ _).
    + unfold constructed. by rewrite heap_put_lookup_ne.
    + destruct (key o); simpl; rewrite lookup_insert_ne by done;
        by rewrite lookup_insert_ne.
Qed.

(** ** The invariant holds from the start and through the generations *)

Lemma sound_empty w : members w = ∅ → sound w.
Proof.
  intros Hm. unfold sound, members_ok, members_seen. rewrite Hm.
  split; apply map_Forall_empty.
Qed.

Lemma sound_same w w' :
  heap w' = heap w → population w' = population w → sound w → sound w'.
Proof.
  intros Hh Hp [Hok Hseen]. split.
  - intros k l. unfold members, member_ok. rewrite Hp, Hh. apply Hok.
  - intros k l. unfold members, seen. rewrite Hp. apply Hseen.
Qed.

Lemma reify_sound w indiv b w' :
  sound w → bound w indiv → reify indiv w = Ok (b, w') → sound w'.
Proof.
  intros Hsound (o & fs & Ho & _ & Hfs & Hne)%bound_iff Hrun.
  apply reify_inv in Hrun as (o' & k & Ho' & Hk & [(_ & _ & ->)|(_ & _ & fs' & Hfs' & ->)]).
  - done.
  - assert (o' = o) as -> by congruence. assert (fs' = fs) as -> by congruence.
    by apply sound_reified.
Qed.

Lemma next_generation_sound w g c r u w' :
  sound w → next_generation g c r w = Ok (u, w') → sound w'.
Proof.
  intros Hsound Hrun.
  destruct (select_parents_total g c r w Hsound) as (w1 & Hsel & Hs1 & _).
  pose proof Hs1 as [Hok1 _].
  unfold next_generation in Hrun.
  rewrite (bind_eq _ _ _ _ _ Hsel), bind_get_pop in Hrun.
  set (n := Z.to_nat _) in Hrun.
  destruct (decide (2 ≤ length (values (members w1)))%nat) as [Hlen|Hlen].
  - destruct (samples_spec (values (members w1)) n w1 Hlen)
      as (pairs & w2 & Hsam & _ & Hdist & Hheap & Hpop).
    rewrite (bind_eq _ _ _ _ _ Hsam) in Hrun.
    destruct (breeding_total g pairs w2) as (w3 & Hbreed & Hs3).
    { eapply Forall_impl; [exact Hdist|]. intros fm [H1 H2]%distinct_parents_in.
      apply elem_of_values in H1 as (k1 & Hk1). apply elem_of_values in H2 as (k2 & Hk2).
      split; apply (bound_same_heap w1); try done;
        eapply member_ok_bound, Hok1; eassumption. }
    rewrite Hbreed in Hrun. assert (w3 = w') as <- by congruence.
    apply Hs3. by apply (sound_same w1).
  - destruct n as [|n].
    + simpl in Hrun. rewrite bind_ret in Hrun. simpl in Hrun.
      assert (w1 = w') as <- by (unfold ret in Hrun; congruence).
      done.
    + assert (Hshort : (length (values (members w1)) < 2)%nat) by lia.
      rewrite (bind_Raise _ _ _ _
                 (samples_short _ (S n) w1 Hshort (Nat.lt_0_succ n))) in Hrun.
      done.
Qed.

(** * Further properties of the engine *)

(** ** Birth and death *)

(** X1. [reify] on an individual whose key the filter has not seen, and
    whose [|sum(feature_set) - target|] has a double, admits it: it returns
    true, stores the fitness of the feature set in the object (the one
    [calc_fitness] sets, without overflow), puts the key in the filter and
    the individual in the exact store, which grows by exactly one entry; no
    other object is touched. *)
Theorem reify_admits w indiv o k fs :
  heap w !! indiv = Some o → key o = Some k → _feature_set o = Some fs →
  Z.abs (sum fs - Individual_target) < float_limit →
  ¬ seen k w → members_seen w →
  ∃ w', reify indiv w = Ok (true, w') ∧
        members w' = <[k := indiv]> (members w) ∧
        size (members w') = S (size (members w)) ∧
        heap w' !! indiv = Some (set_fitness (Some (fitness_of fs)) o) ∧
        Individual_calc_fitness indiv w
        = Ok (tt, heap_put indiv (set_fitness (Some (fitness_of fs)) o) w) ∧
        (∀ l, l ≠ indiv → heap w' !! l = heap w !! l) ∧
        seen k w'.
Proof.
  intros Ho Hk Hfs Hlim Hunseen Hseen. exists (reified indiv o k fs w).
  assert (Hnone : members w !! k = None).
  { destruct (members w !! k) as [l|] eqn:Hl; [|done].
    destruct Hunseen. by eapply members_seen_lookup. }
  split_and!.
  - rewrite (reify_eq _ _ _ _ _ Ho Hk Hfs). unfold seen in Hunseen.
    by destruct (bf_contains k (_bf (population w))).
  - done.
  - unfold members at 1. simpl. by apply map_size_insert_None.
  - simpl. apply lookup_insert_eq.
  - by apply Individual_calc_fitness_eq.
  - intros l Hl. simpl. by apply lookup_insert_ne.
  - apply seen_reified_key.
Qed.

(** X2. [evict] never raises on an allocated individual.  It removes from the
    exact store the entry under the key of the individual, whichever object
    that entry holds, and nothing else: the other entries, the objects and
    the filter stay; when the key is not in the store, or the individual has
    no key, the world is unchanged. *)
Theorem evict_spec w indiv o :
  heap w !! indiv = Some o →
  ∃ w', evict indiv w = Ok (tt, w') ∧
        heap w' = heap w ∧
        _bf (population w') = _bf (population w) ∧
        (∀ k, key o = Some k →
           members w' = delete k (members w) ∧
           (is_Some (members w !! k) → S (size (members w')) = size (members w))) ∧
        ((∀ k, key o = Some k → members w !! k = None) → w' = w).
Proof.
  intros Ho. exists (evicted (key o) w). split_and!.
  - by apply evict_eq.
  - by destruct (key o).
  - by destruct (key o).
  - intros k ->. split; [done|]. intros Hin. unfold members at 1. simpl.
    rewrite (map_size_delete_Some k _ Hin).
    assert (size (_uniq_dht (population w)) ≠ 0%nat); [|unfold members; lia].
    intros H0. apply map_size_empty_iff in H0. unfold members in Hin.
    rewrite H0, lookup_empty in Hin. by destruct Hin.
  - intros Hnone. destruct (key o) as [k|]; [|done]. simpl.
    unfold members. rewrite delete_id by (by apply Hnone).
    by destruct w as [[]].
Qed.

(** ** What the filter has seen does not come back *)

Global Instance no_return_preorder : PreOrder no_return.
Proof.
  split.
  - intros w. split; [reflexivity | auto].
  - intros w1 w2 w3 [Hs12 H12] [Hs23 H23]. split; [by etransitivity|].
    intros k l Hk Hseen. apply H12; [|done]. apply H23; [done|]. by apply Hs12.
Qed.

Lemma same_population_no_return w w' : same_population w w' → no_return w w'.
Proof.
  intros Hp. split; [by apply same_population_seen_le|].
  intros k l. unfold members. by rewrite Hp.
Qed.

Lemma no_return_reify indiv : follows no_return (reify indiv).
Proof.
  intros w b w' Hrun. split; [by eapply seen_le_reify|].
  apply reify_inv in Hrun as (o & k & _ & _ & [(_ & _ & ->)|(Hunseen & _ & fs & _ & ->)]).
  - auto.
  - intros k' l. unfold members at 1. simpl. intros Hk' Hseen.
    destruct (decide (k' = k)) as [->|Hne]; [done|].
    by rewrite lookup_insert_ne in Hk'.
Qed.

Lemma no_return_evict indiv : follows no_return (evict indiv).
Proof.
  intros w u w' Hrun. split; [by eapply seen_le_evict|].
  apply evict_inv in Hrun as (o & _ & ->).
  intros k' l. destruct (key o) as [k|]; [|done]. unfold members at 1. simpl.
  intros Hk' _. by apply lookup_delete_Some in Hk' as [_ Hk'].
Qed.

Create HintDb no_return discriminated.
#[local] Hint Resolve no_return_reify no_return_evict : no_return.

Ltac no_return_tac :=
  repeat first
    [ solve [auto 1 with no_return nocore]
    | apply (follows_weaken same_population);
      [apply same_population_no_return | solve [auto 1 with same_pop nocore]]
    | follows_step ].

Lemma no_return_mutate self g : follows no_return (mutate self g).
Proof. unfold mutate. no_return_tac. Qed.

Lemma no_return_breed self g mate : follows no_return (breed self g mate).
Proof. unfold breed. no_return_tac. Qed.

Lemma no_return_Population_populate g : follows no_return (Population_populate g).
Proof. unfold Population_populate. no_return_tac. Qed.

#[local] Hint Resolve no_return_mutate no_return_breed
  no_return_Population_populate : no_return.

Lemma no_return_boost_diversity g indiv r : follows no_return (_boost_diversity g indiv r).
Proof. unfold _boost_diversity. no_return_tac. Qed.

#[local] Hint Resolve no_return_boost_diversity : no_return.

Lemma no_return_select_parents g c r : follows no_return (_select_parents g c r).
Proof. unfold _select_parents. no_return_tac. Qed.

#[local] Hint Resolve no_return_select_parents : no_return.

Lemma no_return_next_generation g c r : follows no_return (next_generation g c r).
Proof. unfold next_generation. no_return_tac. Qed.

#[local] Hint Resolve no_return_next_generation : no_return.

Lemma no_return_run_call c : follows no_return (run_call c).
Proof. destruct c; simpl; unfold discard; no_return_tac. Qed.

(** X3. A fingerprint that the filter has seen and that is not in the exact
    store stays out of it, whatever the engine is asked to do: once a member
    is evicted, or a candidate was rejected on a false positive, no
    individual with that fingerprint is ever stored again. *)
Theorem seen_key_never_returns w k cs w' :
  seen k w → members w !! k = None →
  run_calls cs w = Ok (tt, w') →
  members w' !! k = None ∧ seen k w'.
Proof.
  intros Hseen Hnone Hrun.
  assert (Hnr : no_return w w').
  { eapply (follows_for_each no_return); [apply no_return_run_call | exact Hrun]. }
  destruct Hnr as [Hle Hback]. split; [|by apply Hle].
  destruct (members w' !! k) as [l|] eqn:Hl; [|done].
  rewrite (Hback k l Hl Hseen) in Hnone. done.
Qed.

(** ** The store under mutation *)

Lemma fresh_loc_heap_put w l o o' :
  heap w !! l = Some o → fresh_loc (heap_put l o' w) = fresh_loc w.
Proof.
  intros Ho. unfold fresh_loc, heap_put. simpl. f_equal.
  rewrite dom_insert_L.
  assert (Hl : l ∈ dom (heap w)) by (apply elem_of_dom; eauto).
  apply subseteq_union_1_L. by apply singleton_subseteq_l.
Qed.

Lemma next_randint_bounds a b w : a ≤ b → a ≤ next_randint a b w ≤ b.
Proof.
  intros Hab. unfold next_randint.
  pose proof (Z.mod_pos_bound (Z.of_nat (entropy w (cursor w))) (b - a + 1)). lia.
Qed.

(** ** The size of the population *)

Lemma values_length (d : gmap string loc) : length (values d) = size d.
Proof. unfold values. by rewrite length_fmap, length_map_to_list. Qed.

Lemma poor_fit_of_filter w c :
  poor_fit_of w c
  = filter (λ x, fitness_gt (fitness_at w x) c = false) (values (members w)).
Proof.
  unfold poor_fit_of. induction (values (members w)) as [|x l IH]; [done|].
  rewrite fmap_cons. destruct (fitness_gt (fitness_at w x) c) eqn:Hx.
  - rewrite filter_cons_False by (simpl; congruence).
    rewrite filter_cons_False by congruence. exact IH.
  - rewrite filter_cons_True by done. rewrite filter_cons_True by done.
    rewrite fmap_cons. simpl. by rewrite IH.
Qed.

Lemma poor_fit_of_members w c :
  members_ok w → NoDup (poor_fit_of w c) ∧ Forall (is_member w) (poor_fit_of w c).
Proof.
  intros Hok. rewrite poor_fit_of_filter. split.
  - by apply NoDup_filter, values_NoDup.
  - apply Forall_forall. intros l [_ Hl]%list_elem_of_filter.
    by apply elem_of_values in Hl.
Qed.

Lemma select_parents_unfold w g c r :
  members_ok w →
  _select_parents g c r w =
  bind (for_each (poor_fit_of w c) (λ indiv, _boost_diversity g indiv r))
    (λ _, bind get_pop (λ p, ret (values (_uniq_dht p)))) w.
Proof.
  intros Hok. unfold _select_parents. rewrite bind_get_pop.
  erewrite bind_eq; last first.
  { apply (map_m_pure _ (λ x, (fitness_gt (fitness_at w x) c, x))).
    intros l (k & Hk)%elem_of_values.
    apply Hok, member_ok_iff in Hk as (o & fs & Ho & _).
    rewrite (bind_eq _ _ _ _ _ (deref_eq _ _ _ Ho)).
    unfold fitness_at. rewrite Ho. reflexivity. }
  reflexivity.
Qed.

Lemma boosted_members w x g r o k fs :
  sound w → heap w !! x = Some o → key o = Some k →
  members (boosted x g r o fs w) = members w ∨
  members (boosted x g r o fs w) = delete k (members w) ∨
  ∃ kn ln, members w !! kn = None ∧
           members (boosted x g r o fs w) = delete k (<[kn := ln]> (members w)).
Proof.
  intros [_ Hseen] Ho Hk. unfold boosted. destruct (Qc_gtb _ _).
  - unfold mutated. set (mfs := sorted _). set (w2 := heap_put x _ _).
    simpl. destruct (bf_contains (unique_key mfs) (_bf (population w))) eqn:Hbf.
    + by left.
    + right. right. exists (unique_key mfs), (fresh_loc w2). split.
      * destruct (members w !! unique_key mfs) as [l|] eqn:Hl; [|done].
        pose proof (members_seen_lookup _ _ _ Hseen Hl) as Hs.
        unfold seen in Hs. congruence.
      * by rewrite Hk.
  - right. left. by rewrite Hk.
Qed.

Lemma diversity_pass_size g r poor_fit w w' :
  sound w → NoDup poor_fit → Forall (is_member w) poor_fit →
  for_each poor_fit (λ indiv, _boost_diversity g indiv r) w = Ok (tt, w') →
  (size (members w') ≤ size (members w))%nat.
Proof.
  revert w. induction poor_fit as [|x poor_fit IH]; intros w Hsound Hnd Hmem Hrun.
  - injection Hrun as <-. done.
  - apply NoDup_cons in Hnd as [Hx Hnd]. apply Forall_cons in Hmem as [[k Hk] Hmem].
    pose proof Hsound as [Hok _].
    pose proof (Hok k x Hk) as (o & fs & Ho & Hko & _ & Hfs & Hne)%member_ok_iff.
    cbn [for_each] in Hrun.
    rewrite (bind_eq _ _ _ _ _ (boost_diversity_eq _ g _ r _ _ Ho Hfs Hne)) in Hrun.
    pose proof (boosted_members w x g r o k fs Hsound Ho Hko) as Hcases.
    assert (Hsize : (size (members (boosted x g r o fs w)) ≤ size (members w))%nat).
    { destruct Hcases as [->|[->|(kn & ln & Hkn & ->)]].
      - done.
      - rewrite map_size_delete_Some by eauto. lia.
      - assert (k ≠ kn) by (intros ->; congruence).
        rewrite map_size_delete_Some by (rewrite lookup_insert_ne by done; eauto).
        rewrite map_size_insert_None by done. simpl. done. }
    etransitivity; [|exact Hsize]. apply IH; try done.
    + by apply sound_boosted.
    + apply Forall_forall. intros l Hl.
      destruct (proj1 (Forall_forall _ _) Hmem l Hl) as [kl Hkl].
      assert (l ≠ x) by (intros ->; done).
      assert (kl ≠ k) by (intros ->; congruence).
      exists kl. destruct Hcases as [->|[->|(kn & ln & Hkn & ->)]].
      * done.
      * by rewrite lookup_delete_ne.
      * assert (kl ≠ kn) by (intros ->; congruence).
        rewrite lookup_delete_ne by done. by rewrite lookup_insert_ne.
Qed.

Lemma breed_size w self g mate w' :
  sound w → bound w self → bound w mate →
  breed self g mate w = Ok (tt, w') →
  sound w' ∧ bound_le w w' ∧
  (size (members w) ≤ size (members w') ≤ S (size (members w)))%nat.
Proof.
  intros Hsound (o & fs & Ho & _ & Hfs & Hne)%bound_iff
    (m & mfs & Hm & _ & Hmfs & _)%bound_iff Hrun.
  rewrite (breed_eq _ _ _ _ _ _ _ _ Ho Hfs Hm Hmfs) in Hrun.
  set (cfs := crossover fs mfs) in *.
  assert (Hchild : heap (constructed g cfs w) !! fresh_loc w = Some (new_individual g cfs))
    by apply heap_put_lookup.
  assert (Hcfs : cfs ≠ []).
  { unfold cfs, crossover. apply sorted_nonempty.
    intros Hnil. apply (f_equal length) in Hnil.
    rewrite length_app, length_drop in Hnil. cbn [length] in Hnil.
    assert (length fs ≠ 0)%nat by (by destruct fs).
    assert (length fs / 2 < length fs)%nat by (apply Nat.div_lt; lia).
    lia. }
  unfold bind in Hrun.
  rewrite (reify_eq _ _ _ (unique_key cfs) cfs Hchild eq_refl eq_refl) in Hrun.
  destruct (bf_contains (unique_key cfs) (_bf (population (constructed g cfs w))))
    eqn:Hbf; injection Hrun as <-.
  - split_and!; [by apply sound_constructed | apply bound_le_constructed | done | ].
    unfold members, constructed. simpl. lia.
  - split_and!.
    + apply sound_reified; try done. by apply sound_constructed.
    + etransitivity; [apply bound_le_constructed | by apply bound_le_reified].
    + unfold members at 2. simpl.
      destruct (members w !! unique_key cfs) eqn:Hl.
      * rewrite map_size_insert_Some; [done|]. unfold members in Hl. eauto.
      * rewrite map_size_insert_None by done. unfold members.
        change (population (constructed g cfs w)) with (population w). lia.
    + unfold members at 1. simpl.
      destruct (members w !! unique_key cfs) eqn:Hl.
      * rewrite map_size_insert_Some; [|unfold members in Hl; eauto].
        unfold members.
        change (population (constructed g cfs w)) with (population w). lia.
      * rewrite map_size_insert_None by done. done.
Qed.

Lemma breeding_size g pairs w w' :
  sound w → Forall (λ fm, bound w fm.1 ∧ bound w fm.2) pairs →
  for_each pairs (λ fm, breed fm.1 g fm.2) w = Ok (tt, w') →
  (size (members w) ≤ size (members w') ≤ size (members w) + length pairs)%nat.
Proof.
  revert w. induction pairs as [|[f m] pairs IH]; intros w Hsound Hb Hrun.
  - injection Hrun as <-. simpl. lia.
  - apply Forall_cons in Hb as [[Hf Hm] Hrest].
    cbn [for_each] in Hrun. apply bind_Ok in Hrun as ([] & w1 & Hbreed & Hrun).
    destruct (breed_size _ _ _ _ _ Hsound Hf Hm Hbreed) as (Hs1 & Hle & Hsz).
    assert (Hb1 : Forall (λ fm, bound w1 fm.1 ∧ bound w1 fm.2) pairs).
    { eapply Forall_impl; [exact Hrest|]. intros fm [H1 H2]. split; by apply Hle. }
    pose proof (IH w1 Hs1 Hb1 Hrun). simpl length. lia.
Qed.

(** X5. One generation never makes the population larger than it was or
    than [n_pop], whichever is greater: the diversity pass does not grow the
    exact store, breeding adds at most [n_pop - len(pool)] members, and every
    member of the pool is still stored at the end. *)
Theorem next_generation_size w g cutoff rate u w' :
  sound w → next_generation g cutoff rate w = Ok (u, w') →
  ∃ parents w1,
    _select_parents g cutoff rate w = Ok (parents, w1) ∧
    (length parents ≤ size (members w))%nat ∧
    (length parents ≤ size (members w'))%nat ∧
    Z.of_nat (size (members w'))
    ≤ Z.max (Z.of_nat (length parents)) (n_pop (population w)).
Proof.
  intros Hsound Hrun. pose proof Hsound as [Hok _].
  destruct (select_parents_total g cutoff rate w Hsound) as (w1 & Hsel & Hs1 & Hn).
  pose proof Hs1 as [Hok1 _].
  assert (Hshrink : (size (members w1) ≤ size (members w))%nat).
  { pose proof Hsel as Hsel'. rewrite (select_parents_unfold _ _ _ _ Hok) in Hsel'.
    apply bind_Ok in Hsel' as ([] & w1' & Hpass & Hret).
    rewrite bind_get_pop in Hret. injection Hret as _ <-.
    destruct (poor_fit_of_members w cutoff Hok) as [Hnd Hmem].
    by eapply diversity_pass_size. }
  exists (values (members w1)), w1. rewrite values_length.
  split; [done|]. split; [done|].
  unfold next_generation in Hrun.
  rewrite (bind_eq _ _ _ _ _ Hsel), bind_get_pop, values_length, Hn in Hrun.
  set (n := Z.to_nat _) in Hrun.
  destruct (decide (2 ≤ length (values (members w1)))%nat) as [Hlen|Hlen].
  - destruct (samples_spec (values (members w1)) n w1 Hlen)
      as (pairs & w2 & Hsam & Hpl & Hdist & Hheap & Hpop).
    rewrite (bind_eq _ _ _ _ _ Hsam) in Hrun.
    assert (Hb : Forall (λ fm, bound w2 fm.1 ∧ bound w2 fm.2) pairs).
    { eapply Forall_impl; [exact Hdist|]. intros fm [H1 H2]%distinct_parents_in.
      apply elem_of_values in H1 as (k1 & Hk1). apply elem_of_values in H2 as (k2 & Hk2).
      split; apply (bound_same_heap w1); try done;
        eapply member_ok_bound, Hok1; eassumption. }
    assert (Hs2 : sound w2) by (by apply (sound_same w1)).
    destruct u.
    pose proof (breeding_size g pairs w2 w' Hs2 Hb Hrun) as Hsz.
    assert (Hmem : members w2 = members w1) by (unfold members; by rewrite Hpop).
    rewrite Hmem, Hpl in Hsz. unfold n in Hsz. lia.
  - destruct n as [|n'] eqn:Hn'.
    + simpl in Hrun. rewrite bind_ret in Hrun. simpl in Hrun.
      assert (w1 = w') as <- by (unfold ret in Hrun; congruence). lia.
    + assert (Hshort : (length (values (members w1)) < 2)%nat) by lia.
      rewrite (bind_Raise _ _ _ _
                 (samples_short _ (S n') w1 Hshort (Nat.lt_0_succ n'))) in Hrun.
      done.
Qed.

(** ** New individuals *)

Lemma randints_spec n a b w :
  a ≤ b →
  ∃ l, randints n a b w = Ok (l, set_cursor (n + cursor w) w) ∧
       length l = n ∧ Forall (λ v, a ≤ v ≤ b) l.
Proof.
  intros Hab. revert w. induction n as [|n IH]; intros w.
  - exists []. split_and!; [|done..]. simpl. by destruct w.
  - destruct (IH (set_cursor (S (cursor w)) w)) as (l & Hrun & Hlen & Hall).
    exists (next_randint a b w :: l). split_and!.
    + cbn [randints].
      rewrite (bind_eq _ _ _ _ _ (randint_eq a b w Hab)), (bind_eq _ _ _ _ _ Hrun).
      unfold ret, set_cursor. simpl. do 3 f_equal. lia.
    + simpl. by rewrite Hlen.
    + constructor; [by apply next_randint_bounds | done].
Qed.

Lemma sorted_Forall (P : Z → Prop) l : Forall P l → Forall P (sorted l).
Proof.
  intros Hl. unfold sorted. by rewrite merge_sort_Permutation.
Qed.

Lemma generate_feature_set_eq self w :
  ∃ fs, generate_feature_set self w
        = Ok (fs, set_cursor (Z.to_nat Individual_length + cursor w) w) ∧
    length fs = Z.to_nat Individual_length ∧
    Forall (λ v, Individual_min ≤ v ≤ Individual_max) fs ∧
    Sorted Z.le fs.
Proof.
  destruct (randints_spec (Z.to_nat Individual_length) Individual_min
              Individual_max w) as (l & Hrun & Hlen & Hall).
  { unfold Individual_min, Individual_max. lia. }
  exists (sorted l). split_and!.
  - unfold generate_feature_set. by rewrite (bind_eq _ _ _ _ _ Hrun).
  - by rewrite sorted_length.
  - by apply sorted_Forall.
  - apply (Sorted_merge_sort Z.le).
Qed.

(** X6. [generate_feature_set] never raises: it returns [length] integers
    of [[min, max]] in ascending order, drawn with [length] draws of the
    random module, and touches neither the population nor any object. *)
Theorem generate_feature_set_spec self w :
  ∃ fs w', generate_feature_set self w = Ok (fs, w') ∧
    Z.of_nat (length fs) = Individual_length ∧
    Forall (λ v, Individual_min ≤ v ≤ Individual_max) fs ∧
    Sorted Z.le fs ∧
    population w' = population w ∧ heap w' = heap w ∧
    cursor w' = (length fs + cursor w)%nat.
Proof.
  destruct (generate_feature_set_eq self w) as (fs & Hrun & Hlen & Hall & Hsorted).
  exists fs, (set_cursor (Z.to_nat Individual_length + cursor w) w).
  split_and!; try done.
  - rewrite Hlen. reflexivity.
  - by rewrite Hlen.
Qed.


Lemma populate_one_eq g w :
  ∃ fs,
    length fs = Z.to_nat Individual_length ∧
    Forall (λ v, Individual_min ≤ v ≤ Individual_max) fs ∧
    Sorted Z.le fs ∧
    let w1 := set_cursor (Z.to_nat Individual_length + cursor w) w in
    populate_one g w =
    Ok (tt, if bf_contains (unique_key fs) (_bf (population w))
            then constructed g fs w1
            else reified (fresh_loc w) (new_individual g fs) (unique_key fs) fs
                   (constructed g fs w1)).
Proof.
  unfold populate_one.
  rewrite (bind_eq _ _ _ _ _ (Individual_init_eq w)).
  set (w0 := heap_put _ _ w).
  destruct (generate_feature_set_eq (fresh_loc w) w0) as (fs & Hgen & Hlen & Hall & Hs).
  exists fs. split_and!; try done. set (w1 := set_cursor _ w).
  rewrite (bind_eq _ _ _ _ _ Hgen).
  set (w0' := set_cursor _ w0).
  assert (Hempty : heap w0' !! fresh_loc w = Some (mkIndividual None None None None))
    by apply heap_put_lookup.
  rewrite (bind_eq _ _ _ _ _ (Individual_populate_eq _ _ _ g fs Hempty)).
  assert (Hc : heap_put (fresh_loc w)
                 (mkIndividual (Some g) (Some fs) (Some (unique_key fs)) None) w0'
               = constructed g fs w1).
  { unfold constructed, heap_put, set_heap, w0', w0, w1, heap_put, set_heap.
    simpl. f_equal. apply insert_insert_eq. }
  simpl fitness. rewrite Hc. unfold bind.
  rewrite (reify_eq _ _ (new_individual g fs) (unique_key fs) fs);
    [|apply heap_put_lookup | done | done].
  change (population (constructed g fs w1)) with (population w).
  by destruct (bf_contains _ _).
Qed.

Lemma newborn_heap g w w' l :
  (∀ l o, heap w !! l = Some o → heap w' !! l = Some o) →
  newborn g w l → newborn g w' l.
Proof. intros Hh (fs & Hl & Hrest). exists fs. split; [by apply Hh | done]. Qed.

Lemma populate_one_spec g w :
  sound w →
  ∃ w', populate_one g w = Ok (tt, w') ∧ sound w' ∧
        members w ⊆ members w' ∧
        (size (members w') ≤ S (size (members w)))%nat ∧
        (∀ l o, heap w !! l = Some o → heap w' !! l = Some o) ∧
        n_pop (population w') = n_pop (population w) ∧
        (∀ k l, members w' !! k = Some l → members w !! k = None → newborn g w' l).
Proof.
  intros Hsound.
  destruct (populate_one_eq g w) as (fs & Hlen & Hall & Hsorted & Hrun).
  cbv zeta in Hrun. set (w1 := set_cursor _ w) in Hrun.
  assert (Hs1 : sound w1) by (by apply (sound_same w)).
  assert (Hsc : sound (constructed g fs w1)) by (by apply sound_constructed).
  assert (Hne : fs ≠ []) by (intros ->; done).
  assert (Hheap : ∀ l o, heap w !! l = Some o →
                         heap (constructed g fs w1) !! l = Some o).
  { intros l o Hl. unfold constructed.
    rewrite heap_put_lookup_ne; [done|]. by apply (fresh_loc_ne w l o). }
  destruct (bf_contains (unique_key fs) (_bf (population w))) eqn:Hbf.
  - eexists. split; [exact Hrun|]. split_and!; try done.
    + unfold members. simpl. lia.
    + intros k l Hk Hnone. unfold members in *. simpl in Hk. congruence.
  - eexists. split; [exact Hrun|].
    assert (Hnone : members w !! unique_key fs = None).
    { destruct (members w !! unique_key fs) as [l|] eqn:Hl; [|done].
      destruct Hsound as [_ Hseen].
      pose proof (members_seen_lookup _ _ _ Hseen Hl) as Hs.
      unfold seen in Hs. congruence. }
    split_and!.
    + apply sound_reified; try done. apply heap_put_lookup.
    + unfold members at 2. simpl. by apply insert_subseteq.
    + unfold members at 1. simpl.
      change (members (constructed g fs w1)) with (members w).
      by rewrite map_size_insert_None.
    + intros l o Hl. simpl.
      rewrite lookup_insert_ne by (by apply (fresh_loc_ne w l o)).
      by apply Hheap.
    + done.
    + intros k l Hk Hk0. unfold members at 1 in Hk. simpl in Hk.
      change (members (constructed g fs w1)) with (members w) in Hk.
      destruct (decide (k = unique_key fs)) as [->|Hkk].
      * rewrite lookup_insert_eq in Hk. injection Hk as <-.
        exists fs. split_and!; try done.
        -- simpl. by rewrite lookup_insert_eq.
        -- rewrite Hlen. reflexivity.
      * rewrite lookup_insert_ne in Hk by done. congruence.
Qed.

Lemma populate_loop g n w :
  sound w →
  ∃ w', for_each (replicate n tt) (λ _, populate_one g) w = Ok (tt, w') ∧
        sound w' ∧ members w ⊆ members w' ∧
        (size (members w') ≤ size (members w) + n)%nat ∧
        (∀ l o, heap w !! l = Some o → heap w' !! l = Some o) ∧
        n_pop (population w') = n_pop (population w) ∧
        (∀ k l, members w' !! k = Some l → members w !! k = None → newborn g w' l).
Proof.
  revert w. induction n as [|n IH]; intros w Hsound.
  - exists w. split_and!; try done.
    + lia.
    + intros k l Hk Hnone. congruence.
  - destruct (populate_one_spec g w Hsound)
      as (w1 & Hrun1 & Hs1 & Hsub1 & Hsz1 & Hh1 & Hn1 & Hnew1).
    destruct (IH w1 Hs1) as (w' & Hrun & Hs' & Hsub & Hsz & Hh & Hn & Hnew).
    exists w'. split_and!.
    + cbn [replicate for_each]. by rewrite (bind_eq _ _ _ _ _ Hrun1).
    + done.
    + by etransitivity.
    + lia.
    + intros l o Hl. by apply Hh, Hh1.
    + by rewrite Hn.
    + intros k l Hk Hnone.
      destruct (members w1 !! k) as [l1|] eqn:Hk1.
      * assert (l1 = l) as ->.
        { pose proof (lookup_weaken _ _ _ _ Hk1 Hsub). congruence. }
        apply (newborn_heap g w1); [done|]. by apply (Hnew1 k).
      * by apply (Hnew k).
Qed.

(** X7. [Population.populate] never raises.  It keeps every member and every
    object of the population, adds at most [n_pop] members (none when
    [n_pop] is not positive), and each member it adds is an individual of the
    current generation with [length] features of [[min, max]] in ascending
    order, stored under the fingerprint of that feature set with its
    fitness; the invariant of the population is kept. *)
Theorem Population_populate_spec g w :
  sound w →
  ∃ w', Population_populate g w = Ok (tt, w') ∧
        sound w' ∧
        members w ⊆ members w' ∧
        Z.of_nat (size (members w'))
        ≤ Z.of_nat (size (members w)) + Z.max 0 (n_pop (population w)) ∧
        (∀ l o, heap w !! l = Some o → heap w' !! l = Some o) ∧
        (∀ k l, members w' !! k = Some l → members w !! k = None → newborn g w' l).
Proof.
  intros Hsound.
  destruct (populate_loop g (Z.to_nat (n_pop (population w))) w Hsound)
    as (w' & Hrun & Hs' & Hsub & Hsz & Hh & _ & Hnew).
  exists w'. split_and!; try done. lia.
Qed.


(** ** The cutoff and the termination test at their edges *)



(** X9. With [n_pop = 0] and a member in the store, [get_fitness_cutoff]
    raises [ZeroDivisionError]: the first iteration divides the count by
    [float(0)]. *)
Theorem get_fitness_cutoff_zero_n_pop w selection_rate :
  members_ok w → members w ≠ ∅ → n_pop (population w) = 0 →
  get_fitness_cutoff selection_rate w = Raise ZeroDivisionError.
Proof.
  intros Hok Hne Hn.
  assert (Hhist : part_hist w ≠ []) by (by rewrite part_hist_nil).
  unfold get_fitness_cutoff.
  rewrite (bind_eq _ _ _ _ _ (get_part_hist_eq _ Hok)), bind_get_pop.
  destruct (part_hist w) as [|[b c] hist]; [done|].
  apply bind_Raise. cbn [cutoff_loop]. by rewrite Hn.
Qed.





(** ** The diversity pass without mutation *)

Lemma random_never_below (r : Qc) (n : nat) :
  (r ≤ 0)%Qc → Qc_gtb r (Q2Qc ((Z.of_nat n mod 2 ^ 53) # 2 ^ 53)) = false.
Proof.
  intros Hr. unfold Qc_gtb. apply negb_false_iff, Qle_bool_iff.
  apply Qle_trans with 0%Q; [exact Hr|].
  cbn [this Q2Qc]. rewrite Qred_correct. unfold Qle. cbn [Qnum Qden].
  pose proof (Z.mod_pos_bound (Z.of_nat n) (2 ^ 53)). lia.
Qed.

Lemma boosted_evicts w indiv g r o fs :
  (r ≤ 0)%Qc →
  boosted indiv g r o fs w = evicted (key o) (set_cursor (S (cursor w)) w).
Proof. intros Hr. unfold boosted. by rewrite random_never_below. Qed.

Lemma culling_pass g r poor w :
  (r ≤ 0)%Qc → members_ok w → NoDup poor → Forall (is_member w) poor →
  ∃ w', for_each poor (λ indiv, _boost_diversity g indiv r) w = Ok (tt, w') ∧
        heap w' = heap w ∧
        members w' = filter (λ kl, kl.2 ∉ poor) (members w) ∧
        _bf (population w') = _bf (population w) ∧
        cursor w' = (length poor + cursor w)%nat.
Proof.
  intros Hr. revert w. induction poor as [|x poor IH]; intros w Hok Hnd Hmem.
  - exists w. split_and!; try done.
    symmetry. apply map_filter_id. intros k l _. simpl. apply not_elem_of_nil.
  - apply NoDup_cons in Hnd as [Hx Hnd]. apply Forall_cons in Hmem as [[k Hk] Hmem].
    pose proof (Hok k x Hk) as (o & fs & Ho & Hko & _ & Hfs & Hne)%member_ok_iff.
    set (w1 := evicted (key o) (set_cursor (S (cursor w)) w)).
    assert (Hm1 : members w1 = delete k (members w)) by (unfold w1; by rewrite Hko).
    assert (Hh1 : heap w1 = heap w) by (unfold w1; by rewrite Hko).
    assert (Hother : ∀ k' l, members w !! k' = Some l → l ∈ poor → k' ≠ k).
    { intros k' l Hk' Hl ->. assert (l = x) as -> by congruence. done. }
    destruct (IH w1) as (w' & Hrun & Hh & Hm & Hbf & Hc).
    { intros k' l'. rewrite Hm1. intros [_ Hk']%lookup_delete_Some.
      pose proof (Hok k' l' Hk') as Hmo. unfold member_ok in *. by rewrite Hh1. }
    { done. }
    { apply Forall_forall. intros l Hl.
      destruct (proj1 (Forall_forall _ _) Hmem l Hl) as [kl Hkl].
      exists kl. rewrite Hm1. rewrite lookup_delete_ne; [done|].
      intros Heq. by apply (Hother kl l Hkl Hl). }
    exists w'. split_and!.
    + cbn [for_each].
      rewrite (bind_eq _ _ _ _ _ (boost_diversity_eq _ g _ r _ _ Ho Hfs Hne)).
      by rewrite boosted_evicts.
    + by rewrite Hh.
    + rewrite Hm, Hm1. apply map_filter_strong_ext_1. intros k' l. simpl.
      rewrite lookup_delete_Some, elem_of_cons. split.
      * intros (Hl & Hkk & Hk'). split; [|done]. intros [->|Hin]; [|done].
        apply Hkk. pose proof (Hok _ _ Hk') as (o' & ? & Ho' & Hko' & _)%member_ok_iff.
        congruence.
      * intros (Hl & Hk'). split_and!; [tauto | | done].
        intros ->. apply Hl. left. congruence.
    + rewrite Hbf. unfold w1. by rewrite Hko.
    + rewrite Hc. unfold w1. rewrite Hko. simpl. lia.
Qed.

(** X12. With a mutation rate of zero or less the diversity pass only
    culls: [random()] is never below the rate, so every member whose fitness
    is not above the cutoff is evicted.  [_select_parents] returns exactly the
    members fitter than the cutoff; no object and no entry of the filter
    changes. *)
Theorem select_parents_without_mutation w g cutoff rate :
  members_ok w → (rate ≤ 0)%Qc →
  ∃ w', _select_parents g cutoff rate w = Ok (values (members w'), w') ∧
        members w'
        = filter (λ kl, fitness_gt (fitness_at w kl.2) cutoff = true) (members w) ∧
        heap w' = heap w ∧
        _bf (population w') = _bf (population w).
Proof.
  intros Hok Hr.
  destruct (poor_fit_of_members w cutoff Hok) as [Hnd Hmem].
  destruct (culling_pass g rate (poor_fit_of w cutoff) w Hr Hok Hnd Hmem)
    as (w' & Hrun & Hh & Hm & Hbf & _).
  exists w'. split_and!; try done.
  - rewrite (select_parents_unfold _ _ _ _ Hok).
    rewrite (bind_eq _ _ _ _ _ Hrun). reflexivity.
  - rewrite Hm. apply map_filter_ext. intros k l Hk. simpl.
    rewrite poor_fit_of_filter, list_elem_of_filter, elem_of_values.
    destruct (fitness_gt (fitness_at w l) cutoff); split; try done.
    + by intros _ [? _].
    + intros Hl. destruct Hl. split; [done | by exists k].
Qed.


(** ** Parents *)

(** X13. No individual breeds with itself: the pool [_select_parents]
    returns holds every member once, so the two parents [sample] draws from
    it are two different members, stored under two different keys. *)
Theorem sampled_parents_differ w g cutoff rate parents w1 wa f m wb :
  sound w →
  _select_parents g cutoff rate w = Ok (parents, w1) →
  sample2 parents wa = Ok ((f, m), wb) →
  f ≠ m ∧
  ∃ kf km, kf ≠ km ∧ members w1 !! kf = Some f ∧ members w1 !! km = Some m.
Proof.
  intros Hsound Hsel Hsam.
  destruct (select_parents_total g cutoff rate w Hsound) as (w1' & Hsel' & [Hok1 _] & _).
  assert (w1' = w1) as -> by congruence.
  assert (parents = values (members w1)) as -> by congruence.
  pose proof (values_NoDup w1 Hok1) as Hnd.
  destruct (decide (2 ≤ length (values (members w1)))%nat) as [Hlen|Hlen].
  - destruct (sample2_spec (values (members w1)) wa Hlen) as (fm & Hfm & Hd).
    assert (fm = (f, m)) as -> by congruence.
    destruct Hd as (i & j & Hij & Hi & Hj). simpl in Hi, Hj.
    assert (Hfm' : f ≠ m).
    { intros ->. apply Hij. by eapply NoDup_lookup. }
    split; [done|].
    apply list_elem_of_lookup_2, elem_of_values in Hi as (kf & Hkf).
    apply list_elem_of_lookup_2, elem_of_values in Hj as (km & Hkm).
    exists kf, km. split_and!; [|done..]. intros ->. congruence.
  - rewrite sample2_short in Hsam by lia. done.
Qed.

(** ** The driver of the evolution *)

Lemma cutoff_loop_world hist n r s bn cur w res w' :
  cutoff_loop hist n r s bn cur w = Ok (res, w') → w' = w.
Proof.
  revert s bn cur. induction hist as [|[b c] hist IH]; intros s bn cur.
  - by intros [= _ <-].
  - cbn [cutoff_loop]. destruct bn; [by intros [= _ <-]|].
    destruct (n =? 0); [done|]. apply IH.
Qed.

Lemma get_fitness_cutoff_outcome w r :
  members_ok w →
  match get_fitness_cutoff r w with
  | Ok (_, w') => w' = w ∧ members w ≠ ∅ ∧ n_pop (population w) ≠ 0
  | Raise e =>
      (e = UnboundLocalError ∧ members w = ∅) ∨
      (e = ZeroDivisionError ∧ members w ≠ ∅ ∧ n_pop (population w) = 0)
  end.
Proof.
  intros Hok. unfold get_fitness_cutoff.
  rewrite (bind_eq _ _ _ _ _ (get_part_hist_eq _ Hok)), bind_get_pop.
  pose proof (part_hist_nil w) as Hnil.
  destruct (part_hist w) as [|[b c] hist] eqn:Hh.
  - left. split; [done|]. by apply Hnil.
  - assert (Hne : members w ≠ ∅) by (intros He; by apply Hnil in He).
    destruct (decide (n_pop (population w) = 0)) as [Hn|Hn].
    + rewrite (bind_Raise _ _ _ ZeroDivisionError); [by right|].
      cbn [cutoff_loop]. by rewrite Hn.
    + destruct (cutoff_loop_spec ((b, c) :: hist) _ r w Hn 0 None)
        as (res & Hrun & _).
      destruct (cutoff_loop_result_cons _ _ _ _ _ _ _ _ _ _ Hrun) as (b' & -> & _).
      by rewrite (bind_eq _ _ _ _ _ Hrun).
Qed.

Lemma next_generation_outcome w g c r :
  sound w → driver_outcome (next_generation g c r w).
Proof.
  intros Hsound.
  destruct (next_generation g c r w) as [[u w']|e] eqn:Hrun.
  { by eapply next_generation_sound. }
  destruct (select_parents_total g c r w Hsound) as (w1 & Hsel & Hs1 & _).
  pose proof Hs1 as [Hok1 _].
  unfold next_generation in Hrun.
  rewrite (bind_eq _ _ _ _ _ Hsel), bind_get_pop in Hrun.
  set (n := Z.to_nat _) in Hrun.
  destruct (decide (2 ≤ length (values (members w1)))%nat) as [Hlen|Hlen].
  - destruct (samples_spec (values (members w1)) n w1 Hlen)
      as (pairs & w2 & Hsam & _ & Hdist & Hheap & Hpop).
    rewrite (bind_eq _ _ _ _ _ Hsam) in Hrun.
    destruct (breeding_total g pairs w2) as (w3 & Hbreed & _).
    { eapply Forall_impl; [exact Hdist|]. intros fm [H1 H2]%distinct_parents_in.
      apply elem_of_values in H1 as (k1 & Hk1). apply elem_of_values in H2 as (k2 & Hk2).
      split; apply (bound_same_heap w1); try done;
        eapply member_ok_bound, Hok1; eassumption. }
    congruence.
  - destruct n as [|n].
    + simpl in Hrun. rewrite bind_ret in Hrun. done.
    + assert (Hshort : (length (values (members w1)) < 2)%nat) by lia.
      rewrite (bind_Raise _ _ _ _
                 (samples_short _ (S n) w1 Hshort (Nat.lt_0_succ n))) in Hrun.
      left. congruence.
Qed.

Lemma driver_call_outcome c w :
  sound w → driver_call c → driver_outcome (run_call c w).
Proof.
  intros Hsound Hc. pose proof Hsound as [Hok _].
  destruct c; try done; cbn [run_call].
  - destruct (populate_loop current_gen (Z.to_nat (n_pop (population w))) w Hsound)
      as (w' & Hrun & Hs' & _).
    assert (Population_populate current_gen w = Ok (tt, w')) as -> by exact Hrun.
    done.
  - unfold discard. by rewrite (bind_eq _ _ _ _ _ (get_part_hist_eq _ Hok)).
  - unfold discard, bind.
    pose proof (get_fitness_cutoff_outcome w selection_rate Hok) as Hout.
    destruct (get_fitness_cutoff selection_rate w) as [[b w']|e].
    + destruct Hout as [-> _]. done.
    + destruct Hout as [[-> _]|[-> _]]; unfold driver_outcome, driver_error; auto.
  - by apply next_generation_outcome.
  - unfold discard, test_termination.
    rewrite bind_assoc, (bind_eq _ _ _ _ _ (get_part_hist_eq _ Hok)).
    rewrite bind_assoc, bind_get_pop.
    destruct (n_pop (population w) =? 0).
    + unfold driver_outcome, driver_error. simpl. auto.
    + simpl. by apply (sound_same w).
Qed.



(** ** The range of the fitness *)

Lemma sum_bounds (l : list Z) (a b : Z) :
  Forall (λ v, a ≤ v ≤ b) l →
  a * Z.of_nat (length l) ≤ sum l ≤ b * Z.of_nat (length l).
Proof.
  intros Hl. unfold sum.
  cut (∀ acc, acc + a * Z.of_nat (length l) ≤ fold_left Z.add l acc
              ≤ acc + b * Z.of_nat (length l)).
  { intros H. specialize (H 0). lia. }
  induction Hl as [|x l Hx Hl IH]; intros acc.
  - simpl. lia.
  - cbn [fold_left length]. specialize (IH (acc + x)).
    rewrite Nat2Z.inj_succ, !Z.mul_succ_r. lia.
Qed.

Lemma fitness_of_ge (fs : list Z) (d : Z) :
  Z.abs (sum fs - Individual_target) ≤ d →
  (1 - float d / float Individual_target ≤ fitness_of fs)%Qc.
Proof.
  intros Hd. unfold fitness_of.
  set (a := float (Z.abs (sum fs - Individual_target))).
  set (t := float Individual_target).
  assert (Ht : (0 ≤ / t)%Qc) by apply Qclt_le_weak, Qcinv_pos, float_target_pos.
  assert (Ha : (a ≤ float d)%Qc) by (by apply (proj1 (Z2Qc_inj_le _ _))).
  pose proof (Qcmult_le_compat_r _ _ _ Ha Ht) as Hdiv.
  apply Qcle_minus_iff in Hdiv. apply Qcle_minus_iff.
  unfold Qcdiv.
  by replace (1 - a * / t + - (1 - float d * / t))%Qc
    with (float d * / t + - (a * / t))%Qc by ring.
Qed.

(** X15. The fitness of a feature set of [length] integers of [[min, max]]
    lies between [-38/231] and [1], not between [0] and [1]: it is negative
    exactly when the features add up to more than twice the target, and the
    lower bound is the fitness of the feature set that is [max]
    throughout. *)
Theorem fitness_of_features (fs : list Z) :
  Z.of_nat (length fs) = Individual_length →
  Forall (λ v, Individual_min ≤ v ≤ Individual_max) fs →
  (Q2Qc (-38 # 231) ≤ fitness_of fs)%Qc ∧
  (fitness_of fs ≤ 1)%Qc ∧
  ((fitness_of fs < 0)%Qc ↔ 2 * Individual_target < sum fs) ∧
  fitness_of (replicate (length fs) Individual_max) = Q2Qc (-38 # 231).
Proof.
  intros Hlen Hall. pose proof (sum_bounds fs _ _ Hall) as Hsum.
  rewrite Hlen in Hsum.
  unfold Individual_min, Individual_max, Individual_length in Hsum.
  split_and!.
  - replace (Q2Qc (-38 # 231)) with (1 - float 269 / float Individual_target)%Qc
      by (apply Qc_is_canon; reflexivity).
    apply fitness_of_ge. unfold Individual_target. lia.
  - apply fitness_of_le_1.
  - split.
    + intros Hneg.
      destruct (decide (2 * Individual_target < sum fs)) as [|Hle]; [done|].
      assert (Hge : (1 - float Individual_target / float Individual_target
                     ≤ fitness_of fs)%Qc).
      { apply fitness_of_ge. unfold Individual_target in *. lia. }
      replace (1 - float Individual_target / float Individual_target)%Qc
        with 0%Qc in Hge by (apply Qc_is_canon; reflexivity).
      by apply Qcle_not_lt in Hge.
    + intros Hfar. apply fitness_of_negative. unfold Individual_target in *. lia.
  - assert (length fs = 5%nat) as -> by (unfold Individual_length in Hlen; lia).
    apply Qc_is_canon. reflexivity.
Qed.


(** ** The text of a feature set *)

Lemma chars_app (s t : string) :
  String.list_ascii_of_string (s +:+ t) = String.list_ascii_of_string s ++ String.list_ascii_of_string t.
Proof.
  induction s as [|c s IH]; [done|].
  change (String c s +:+ t) with (String c (s +:+ t)).
  cbn [String.list_ascii_of_string]. by rewrite IH.
Qed.

Lemma chars_inj (s t : string) :
  String.list_ascii_of_string s = String.list_ascii_of_string t → s = t.
Proof.
  intros Heq. rewrite <- (String.string_of_list_ascii_of_string s),
    <- (String.string_of_list_ascii_of_string t). by rewrite Heq.
Qed.

Lemma pretty_N_char_plain (x : N) : pretty_N_char x ≠ comma.
Proof. unfold pretty_N_char. by repeat case_match. Qed.

Lemma pretty_N_go_chars (x : N) (s : string) :
  ∃ d, String.list_ascii_of_string (pretty_N_go x s)
       = d ++ String.list_ascii_of_string s ∧
       (comma ∉ d) ∧ ((0 < x)%N → d ≠ []).
Proof.
  revert s. induction (N.lt_wf_0 x) as [x _ IH]; intros s.
  assert (x = 0 ∨ 0 < x)%N as [->|Hx] by lia.
  - exists []. rewrite pretty_N_go_0. split_and!; [done | apply not_elem_of_nil | lia].
  - rewrite pretty_N_go_step by done.
    destruct (IH (x `div` 10)%N (N.div_lt x 10 Hx eq_refl)
                (String (pretty_N_char (x `mod` 10)) s)) as (d & Hd & Hplain & _).
    exists (d ++ [pretty_N_char (x `mod` 10)%N]). split_and!.
    + rewrite Hd. cbn [String.list_ascii_of_string]. by rewrite <- app_assoc.
    + rewrite elem_of_app, list_elem_of_singleton.
      intros [?|Heq]; [done|]. by apply (pretty_N_char_plain (x `mod` 10)%N).
    + intros _. by destruct d.
Qed.

Lemma pretty_N_chars (x : N) :
  (comma ∉ String.list_ascii_of_string (pretty x)) ∧
  String.list_ascii_of_string (pretty x) ≠ [].
Proof.
  unfold pretty, pretty_N. destruct (decide (x = 0)%N) as [->|Hx].
  - split; [|done]. simpl. rewrite list_elem_of_singleton. done.
  - destruct (pretty_N_go_chars x "") as (d & -> & Hplain & Hne).
    simpl. rewrite app_nil_r. split; [done|]. apply Hne. lia.
Qed.

Lemma pretty_Z_chars (x : Z) :
  (comma ∉ String.list_ascii_of_string (pretty x)) ∧
  String.list_ascii_of_string (pretty x) ≠ [].
Proof.
  unfold pretty, pretty_Z. destruct x as [|p|p].
  - split; [|done]. simpl. rewrite list_elem_of_singleton. done.
  - apply (pretty_N_chars (N.pos p)).
  - rewrite chars_app. destruct (pretty_N_chars (N.pos p)) as [Hplain _].
    split; [|done]. simpl. rewrite elem_of_cons. intros [?|?]; done.
Qed.

Lemma comma_split (s1 s2 t1 t2 : list ascii) :
  comma ∉ s1 → comma ∉ s2 →
  s1 ++ comma :: t1 = s2 ++ comma :: t2 → s1 = s2 ∧ t1 = t2.
Proof.
  revert s2. induction s1 as [|c s1 IH]; intros [|c2 s2] H1 H2 Heq.
  - by injection Heq.
  - injection Heq as <- _. destruct H2. left.
  - injection Heq as -> _. destruct H1. left.
  - injection Heq as <- Heq.
    destruct (IH s2) as [-> ->]; [| | done | done].
    + intros Hin. apply H1. by right.
    + intros Hin. apply H2. by right.
Qed.

Lemma chars_join_cons (s x : string) (l : list string) :
  String.list_ascii_of_string (join ", " (s :: x :: l))
  = String.list_ascii_of_string s ++ comma :: " "%char
      :: String.list_ascii_of_string (join ", " (x :: l)).
Proof.
  change (join ", " (s :: x :: l)) with (s +:+ ", " +:+ join ", " (x :: l)).
  by rewrite !chars_app.
Qed.

Lemma join_inj (l1 l2 : list string) :
  Forall (λ s, (comma ∉ String.list_ascii_of_string s) ∧
               String.list_ascii_of_string s ≠ []) l1 →
  Forall (λ s, (comma ∉ String.list_ascii_of_string s) ∧
               String.list_ascii_of_string s ≠ []) l2 →
  join ", " l1 = join ", " l2 → l1 = l2.
Proof.
  intros H1. revert l2. induction H1 as [|s1 l1 [Hp1 Hn1] H1 IH];
    intros l2 H2 Heq; destruct H2 as [|s2 l2 [Hp2 Hn2] H2].
  - done.
  - apply (f_equal String.list_ascii_of_string) in Heq. exfalso.
    destruct l2 as [|x l2].
    + simpl in Heq. by rewrite <- Heq in Hn2.
    + rewrite chars_join_cons in Heq. simpl in Heq.
      by destruct (String.list_ascii_of_string s2).
  - apply (f_equal String.list_ascii_of_string) in Heq. exfalso.
    destruct l1 as [|x l1].
    + simpl in Heq. by rewrite Heq in Hn1.
    + rewrite chars_join_cons in Heq. simpl in Heq.
      by destruct (String.list_ascii_of_string s1).
  - apply (f_equal String.list_ascii_of_string) in Heq.
    destruct l1 as [|x1 l1], l2 as [|x2 l2].
    + f_equal. by apply chars_inj.
    + exfalso. rewrite chars_join_cons in Heq. apply Hp1.
      cbn [join] in Heq. rewrite Heq. set_solver.
    + exfalso. rewrite chars_join_cons in Heq. apply Hp2.
      cbn [join] in Heq. rewrite <- Heq. set_solver.
    + rewrite !chars_join_cons in Heq.
      apply comma_split in Heq as [Hs Hj]; [|done..].
      injection Hj as Hj. f_equal; [by apply chars_inj|].
      apply IH; [done|]. by apply chars_inj.
Qed.

(** X16. The JSON text of a feature set determines the feature set: two
    feature sets with the same text are equal, so two individuals with
    different feature sets can share a key only if the digest collides. *)
Theorem json_feature_set_inj (fs1 fs2 : list Z) :
  json_feature_set fs1 = json_feature_set fs2 → fs1 = fs2.
Proof.
  unfold json_feature_set, dumps. intros Heq.
  apply (f_equal String.list_ascii_of_string) in Heq.
  rewrite !chars_app in Heq. apply app_inv_head, app_inv_tail in Heq.
  apply chars_inj, join_inj in Heq.
  - by apply (inj (fmap pretty)) in Heq.
  - apply Forall_fmap, Forall_forall. intros z _. apply pretty_Z_chars.
  - apply Forall_fmap, Forall_forall. intros z _. apply pretty_Z_chars.
Qed.


(** ** Feature sets stay within the parameters *)

Lemma heap_shaped_lookup w l o fs :
  heap_shaped w → heap w !! l = Some o → _feature_set o = Some fs → shaped fs.
Proof. intros Hw Hl Hfs. specialize (Hw l o Hl). simpl in Hw. by rewrite Hfs in Hw. Qed.

Lemma heap_shaped_put w l o :
  heap_shaped w → from_option shaped True (_feature_set o) →
  heap_shaped (heap_put l o w).
Proof. intros Hw Ho. unfold heap_shaped, heap_put. simpl. by apply map_Forall_insert_2. Qed.

Lemma heap_shaped_same w w' : heap w' = heap w → heap_shaped w → heap_shaped w'.
Proof. unfold heap_shaped. by intros ->. Qed.

Lemma shaped_insert fs i v :
  shaped fs → Individual_min ≤ v ≤ Individual_max → shaped (<[i := v]> fs).
Proof.
  intros [Hlen Hall] Hv. split; [by rewrite length_insert|].
  by apply Forall_insert.
Qed.

Lemma shaped_sorted fs : shaped fs → shaped (sorted fs).
Proof.
  intros [Hlen Hall]. split; [by rewrite sorted_length | by apply sorted_Forall].
Qed.

Lemma shaped_crossover fs mfs : shaped fs → shaped mfs → shaped (crossover fs mfs).
Proof.
  intros [Hlen Hall] [Hmlen Hmall]. split.
  - rewrite crossover_length; [done|]. apply Nat2Z.inj. congruence.
  - unfold crossover. apply sorted_Forall, Forall_app.
    split; [by apply Forall_drop | by apply Forall_take].
Qed.

Lemma heap_shaped_constructed g fs w :
  heap_shaped w → shaped fs → heap_shaped (constructed g fs w).
Proof. intros Hw Hfs. by apply heap_shaped_put. Qed.

Lemma heap_shaped_reified w indiv o k fs :
  heap_shaped w → heap w !! indiv = Some o → heap_shaped (reified indiv o k fs w).
Proof.
  intros Hw Ho. apply (heap_shaped_same (heap_put indiv (set_fitness (Some (fitness_of fs)) o) w));
    [done|].
  apply heap_shaped_put; [done|]. exact (Hw indiv o Ho).
Qed.

Lemma heap_shaped_evicted k w : heap_shaped w → heap_shaped (evicted k w).
Proof. by destruct k. Qed.

Lemma heap_shaped_mutated w self g o fs :
  heap_shaped w → heap w !! self = Some o → _feature_set o = Some fs → fs ≠ [] →
  heap_shaped (mutated self g o fs w).
Proof.
  intros Hw Ho Hfs Hne. unfold mutated.
  set (mfs := <[_ := _]> fs).
  set (w2 := heap_put self _ _).
  assert (Hmfs : shaped mfs).
  { apply shaped_insert; [by eapply heap_shaped_lookup|].
    apply next_randint_bounds. unfold Individual_min, Individual_max. lia. }
  assert (Hw2 : heap_shaped w2).
  { unfold w2. apply heap_shaped_put; [|done].
    by apply (heap_shaped_same w). }
  assert (Hw3 : heap_shaped (constructed g (sorted mfs) w2)).
  { apply heap_shaped_constructed; [done | by apply shaped_sorted]. }
  destruct (bf_contains _ _); [done|].
  apply heap_shaped_evicted, heap_shaped_reified; [done | apply heap_put_lookup].
Qed.

Lemma heap_shaped_boosted w indiv g r o fs :
  heap_shaped w → heap w !! indiv = Some o → _feature_set o = Some fs → fs ≠ [] →
  heap_shaped (boosted indiv g r o fs w).
Proof.
  intros Hw Ho Hfs Hne. unfold boosted. destruct (Qc_gtb _ _).
  - by apply heap_shaped_mutated.
  - apply heap_shaped_evicted. by apply (heap_shaped_same w).
Qed.

Lemma diversity_pass_shaped g r poor_fit w w' :
  Forall (bound w) poor_fit → heap_shaped w →
  for_each poor_fit (λ indiv, _boost_diversity g indiv r) w = Ok (tt, w') →
  heap_shaped w'.
Proof.
  revert w. induction poor_fit as [|x poor_fit IH]; intros w Hbound Hw Hrun.
  - by injection Hrun as <-.
  - apply Forall_cons in Hbound as [Hx Hrest].
    apply bound_iff in Hx as (o & fs & Ho & _ & Hfs & Hne).
    cbn [for_each] in Hrun.
    rewrite (bind_eq _ _ _ _ _ (boost_diversity_eq _ g _ r _ _ Ho Hfs Hne)) in Hrun.
    apply (IH (boosted x g r o fs w)); [| by apply heap_shaped_boosted | done].
    eapply Forall_impl; [exact Hrest|]. intros l. by apply bound_le_boosted.
Qed.

Lemma select_parents_shaped g c r w parents w1 :
  sound w → heap_shaped w →
  _select_parents g c r w = Ok (parents, w1) → heap_shaped w1.
Proof.
  intros [Hok _] Hw Hrun.
  rewrite (select_parents_unfold _ _ _ _ Hok) in Hrun.
  apply bind_Ok in Hrun as ([] & w1' & Hpass & Hret).
  rewrite bind_get_pop in Hret. injection Hret as _ <-.
  eapply diversity_pass_shaped; [| exact Hw | exact Hpass].
  destruct (poor_fit_of_members w c Hok) as [_ Hmem].
  eapply Forall_impl; [exact Hmem|]. intros l [k Hk].
  eapply member_ok_bound, Hok, Hk.
Qed.

Lemma breed_shaped w self g mate w' :
  bound w self → bound w mate → heap_shaped w →
  breed self g mate w = Ok (tt, w') → heap_shaped w'.
Proof.
  intros (o & fs & Ho & _ & Hfs & Hne)%bound_iff
    (m & mfs & Hm & _ & Hmfs & _)%bound_iff Hw Hrun.
  rewrite (breed_eq _ _ _ _ _ _ _ _ Ho Hfs Hm Hmfs) in Hrun.
  set (cfs := crossover fs mfs) in *.
  assert (Hchild : heap (constructed g cfs w) !! fresh_loc w = Some (new_individual g cfs))
    by apply heap_put_lookup.
  assert (Hc : heap_shaped (constructed g cfs w)).
  { apply heap_shaped_constructed; [done|].
    apply shaped_crossover;
      [exact (heap_shaped_lookup _ _ _ _ Hw Ho Hfs)
      | exact (heap_shaped_lookup _ _ _ _ Hw Hm Hmfs)]. }
  unfold bind in Hrun.
  rewrite (reify_eq _ _ _ (unique_key cfs) cfs Hchild eq_refl eq_refl) in Hrun.
  destruct (bf_contains _ _); injection Hrun as <-; [done|].
  by apply heap_shaped_reified.
Qed.

Lemma breeding_shaped g pairs w w' :
  sound w → Forall (λ fm, bound w fm.1 ∧ bound w fm.2) pairs → heap_shaped w →
  for_each pairs (λ fm, breed fm.1 g fm.2) w = Ok (tt, w') → heap_shaped w'.
Proof.
  revert w. induction pairs as [|[f m] pairs IH]; intros w Hsound Hb Hw Hrun.
  - by injection Hrun as <-.
  - apply Forall_cons in Hb as [[Hf Hm] Hrest].
    cbn [for_each] in Hrun. apply bind_Ok in Hrun as ([] & w1 & Hbreed & Hrun).
    destruct (breed_size _ _ _ _ _ Hsound Hf Hm Hbreed) as (Hs1 & Hle & _).
    apply (IH w1); try done.
    + eapply Forall_impl; [exact Hrest|]. intros fm [H1 H2]. split; by apply Hle.
    + exact (breed_shaped w f g m w1 Hf Hm Hw Hbreed).
Qed.

Lemma next_generation_shaped w g c r u w' :
  sound w → heap_shaped w → next_generation g c r w = Ok (u, w') → heap_shaped w'.
Proof.
  intros Hsound Hw Hrun.
  destruct (select_parents_total g c r w Hsound) as (w1 & Hsel & Hs1 & _).
  pose proof Hs1 as [Hok1 _].
  pose proof (select_parents_shaped _ _ _ _ _ _ Hsound Hw Hsel) as Hw1.
  unfold next_generation in Hrun.
  rewrite (bind_eq _ _ _ _ _ Hsel), bind_get_pop in Hrun.
  set (n := Z.to_nat _) in Hrun.
  destruct (decide (2 ≤ length (values (members w1)))%nat) as [Hlen|Hlen].
  - destruct (samples_spec (values (members w1)) n w1 Hlen)
      as (pairs & w2 & Hsam & _ & Hdist & Hheap & Hpop).
    rewrite (bind_eq _ _ _ _ _ Hsam) in Hrun. destruct u.
    apply (breeding_shaped g pairs w2 w'); try done.
    + by apply (sound_same w1).
    + eapply Forall_impl; [exact Hdist|]. intros fm [H1 H2]%distinct_parents_in.
      apply elem_of_values in H1 as (k1 & Hk1). apply elem_of_values in H2 as (k2 & Hk2).
      split; apply (bound_same_heap w1); try done;
        eapply member_ok_bound, Hok1; eassumption.
    + by apply (heap_shaped_same w1).
  - destruct n as [|n].
    + simpl in Hrun. rewrite bind_ret in Hrun. simpl in Hrun.
      assert (w1 = w') as <- by (unfold ret in Hrun; congruence).
      done.
    + assert (Hshort : (length (values (members w1)) < 2)%nat) by lia.
      rewrite (bind_Raise _ _ _ _
                 (samples_short _ (S n) w1 Hshort (Nat.lt_0_succ n))) in Hrun.
      done.
Qed.

Lemma populate_one_shaped g w w' :
  heap_shaped w → populate_one g w = Ok (tt, w') → heap_shaped w'.
Proof.
  intros Hw Hrun.
  destruct (populate_one_eq g w) as (fs & Hlen & Hall & _ & Heq).
  cbv zeta in Heq. rewrite Heq in Hrun. injection Hrun as <-.
  set (w1 := set_cursor _ w).
  assert (Hc : heap_shaped (constructed g fs w1)).
  { apply heap_shaped_constructed; [by apply (heap_shaped_same w)|].
    split; [|done]. rewrite Hlen. reflexivity. }
  destruct (bf_contains _ _); [done|].
  apply heap_shaped_reified; [done | apply heap_put_lookup].
Qed.

Lemma populate_loop_shaped g n w w' :
  heap_shaped w →
  for_each (replicate n tt) (λ _, populate_one g) w = Ok (tt, w') → heap_shaped w'.
Proof.
  revert w. induction n as [|n IH]; intros w Hw Hrun.
  - by injection Hrun as <-.
  - cbn [replicate for_each] in Hrun.
    apply bind_Ok in Hrun as ([] & w1 & Hone & Hrun).
    apply (IH w1); [|done]. by eapply populate_one_shaped.
Qed.

Lemma driver_call_shaped c w w' :
  sound w → heap_shaped w → driver_call c →
  run_call c w = Ok (tt, w') → heap_shaped w'.
Proof.
  intros Hsound Hw Hc Hrun. pose proof Hsound as [Hok _].
  destruct c; try done; cbn [run_call] in Hrun.
  - by apply (populate_loop_shaped current_gen (Z.to_nat (n_pop (population w))) w).
  - unfold discard in Hrun.
    rewrite (bind_eq _ _ _ _ _ (get_part_hist_eq _ Hok)) in Hrun.
    by injection Hrun as <-.
  - unfold discard, bind in Hrun.
    pose proof (get_fitness_cutoff_outcome w selection_rate Hok) as Hout.
    destruct (get_fitness_cutoff selection_rate w) as [[b w1]|e]; [|done].
    destruct Hout as [-> _]. by injection Hrun as <-.
  - by eapply next_generation_shaped.
  - unfold discard, test_termination in Hrun.
    rewrite bind_assoc, (bind_eq _ _ _ _ _ (get_part_hist_eq _ Hok)) in Hrun.
    rewrite bind_assoc, bind_get_pop in Hrun.
    destruct (n_pop (population w) =? 0); [done|].
    simpl in Hrun. injection Hrun as <-. by apply (heap_shaped_same w).
Qed.

(** X17. The feature sets never leave the parameters of the class: from a
    population that satisfies the invariant and a heap whose feature sets
    all have [length] features of [[min, max]] (for instance a new
    population), after any returning run of a driver every member is bound
    to a feature set of [length] features of [[min, max]].  Generation,
    crossover and mutation keep the number and the range of the
    features. *)
Theorem driver_keeps_shape w cs w' :
  sound w → heap_shaped w → Forall driver_call cs →
  run_calls cs w = Ok (tt, w') →
  ∀ k l, members w' !! k = Some l →
    ∃ o fs, heap w' !! l = Some o ∧ _feature_set o = Some fs ∧
            Z.of_nat (length fs) = Individual_length ∧
            Forall (λ v, Individual_min ≤ v ≤ Individual_max) fs.
Proof.
  intros Hsound Hw Hcs Hrun.
  assert (Hboth : sound w' ∧ heap_shaped w').
  { revert w Hsound Hw Hrun.
    induction Hcs as [|c cs Hc Hcs IH]; intros w Hsound Hw Hrun.
    - injection Hrun as <-. done.
    - unfold run_calls in Hrun. cbn [for_each] in Hrun.
      apply bind_Ok in Hrun as ([] & w1 & Hone & Hrun).
      pose proof (driver_call_outcome c w Hsound Hc) as Hout.
      rewrite Hone in Hout.
      apply (IH w1); [exact Hout | exact (driver_call_shaped c w w1 Hsound Hw Hc Hone) | exact Hrun]. }
  destruct Hboth as [[Hok' _] Hw'].
  intros k l Hk.
  apply Hok', member_ok_iff in Hk as (o & fs & Ho & _ & _ & Hfs & _).
  exists o, fs. split_and!; [done | done | |];
    by destruct (heap_shaped_lookup _ _ _ _ Hw' Ho Hfs).
Qed.


(** ** The store under mutation, within the parameters *)

Lemma shaped_nonempty fs : shaped fs → fs ≠ [].
Proof. intros [Hlen _] ->. done. Qed.

Lemma shaped_has_float fs :
  shaped fs → Z.abs (sum fs - Individual_target) < float_limit.
Proof.
  intros [Hlen Hall]. pose proof (sum_bounds fs _ _ Hall) as Hsum.
  rewrite Hlen in Hsum.
  unfold Individual_min, Individual_max, Individual_length in Hsum.
  assert (Hbig : 1000 < float_limit) by (vm_compute; reflexivity).
  unfold Individual_target. lia.
Qed.

(** X4. [mutate] on an individual with a key and a feature set within the
    parameters of the class never raises.  It draws a position of the
    feature set and a value of [[min, max]]: the mutated, sorted feature set
    is within the parameters again, so that its fitness has a double.  When
    its fingerprint was seen, the exact store is left as it is; otherwise
    the mutant, a new object, enters the store under its fingerprint with
    its fitness, and the entry under the key of the caller is removed.
    Either way a store that held the caller keeps its size. *)
Theorem mutate_store w self g o k fs :
  heap w !! self = Some o → key o = Some k → _feature_set o = Some fs →
  shaped fs →
  ∃ w' pos v,
    mutate self g w = Ok (tt, w') ∧
    0 ≤ pos < Z.of_nat (length fs) ∧
    Individual_min ≤ v ≤ Individual_max ∧
    let mfs := sorted (<[Z.to_nat pos := v]> fs) in
    let mutant := fresh_loc w in
    shaped mfs ∧
    Z.abs (sum mfs - Individual_target) < float_limit ∧
    (seen (unique_key mfs) w → members w' = members w) ∧
    (¬ seen (unique_key mfs) w →
       members w' = delete k (<[unique_key mfs := mutant]> (members w)) ∧
       heap w' !! mutant
       = Some (set_fitness (Some (fitness_of mfs)) (new_individual g mfs))) ∧
    (members_seen w → is_Some (members w !! k) →
       size (members w') = size (members w)).
Proof.
  intros Ho Hk Hfs Hshaped. pose proof (shaped_nonempty fs Hshaped) as Hne.
  assert (Hlen : 0 ≤ Z.of_nat (length fs) - 1) by (destruct fs; [done | simpl length; lia]).
  assert (Hv : Individual_min ≤
               next_randint Individual_min Individual_max (set_cursor (S (cursor w)) w)
               ≤ Individual_max) by (by apply next_randint_bounds).
  exists (mutated self g o fs w), (next_randint 0 (Z.of_nat (length fs) - 1) w),
    (next_randint Individual_min Individual_max (set_cursor (S (cursor w)) w)).
  split_and!.
  - by apply mutate_eq.
  - pose proof (next_randint_bounds 0 _ w Hlen). lia.
  - pose proof (next_randint_bounds 0 _ w Hlen). lia.
  - apply Hv.
  - apply Hv.
  - intros mfs mutant.
    assert (Hmfs : shaped mfs) by (by apply shaped_sorted, shaped_insert).
    unfold mutated.
    set (raw := <[_ := _]> fs). fold raw in mfs. fold mfs.
    set (w2 := heap_put self _ _).
    assert (Hfresh : fresh_loc w2 = mutant).
    { unfold w2. by erewrite fresh_loc_heap_put. }
    unfold seen. rewrite Hfresh, Hk.
    split; [exact Hmfs|]. split; [by apply shaped_has_float|].
    destruct (bf_contains (unique_key mfs) (_bf (population w))) eqn:Hbf.
    + split_and!; [done | done |done].
    + split_and!; [done | |].
      * intros _. split; [done|]. simpl. rewrite <- Hfresh.
        apply lookup_insert_eq.
      * intros Hseen Hin. unfold members at 1. simpl.
        assert (Hnew : members w !! unique_key mfs = None).
        { destruct (members w !! unique_key mfs) as [l|] eqn:Hl; [|done].
          pose proof (members_seen_lookup _ _ _ Hseen Hl) as Hs.
          unfold seen in Hs. congruence. }
        assert (Hkk : k ≠ unique_key mfs).
        { intros ->. rewrite Hnew in Hin. by destruct Hin. }
        change (members (reified mutant (new_individual g mfs) (unique_key mfs) mfs
                           (constructed g mfs w2)))
          with (<[unique_key mfs := mutant]> (members w)).
        rewrite map_size_delete_Some
          by (rewrite lookup_insert_ne by done; exact Hin).
        rewrite map_size_insert_None by exact Hnew. reflexivity.
Qed.

End Properties.

(** * Runs of the engine *)

(** With the exact filter and the plain digest the engine computes. *)

Lemma reify_twice_rejected_witness :
  reify 2%positive world_two_twins = Ok (false, world_two_twins).
Proof.
  apply (reify_twice_rejected world_one_bound 1%positive
           (mkIndividual (Some 0) (Some [1; 2; 3; 4; 5]) (Some "[1, 2, 3, 4, 5]") None)
           "[1, 2, 3, 4, 5]" true (world_after (reify 1%positive) world_one_bound)
           [call_Individual; call_Individual_populate 2%positive 1 [1; 2; 3; 4; 5]]
           world_two_twins 2%positive
           (mkIndividual (Some 1) (Some [1; 2; 3; 4; 5]) (Some "[1, 2, 3, 4, 5]") None));
    vm_compute; reflexivity.
Defined.

Lemma world_three_ok : members_ok world_three.
Proof. apply (bool_decide_unpack _). vm_compute. reflexivity. Defined.






Lemma calc_fitness_value_witness :
  let w := world_one_bound in
  let fs := [1; 2; 3; 4; 5] in
  let o := mkIndividual (Some 0) (Some fs) (Some "[1, 2, 3, 4, 5]") None in
  let d := Z.abs (sum fs - Individual_target) in
  let f := (1 - float d / float Individual_target)%Qc in
  d < float_limit ∧
  Individual_calc_fitness 1%positive w
  = Ok (tt, heap_put 1%positive (set_fitness (Some f) o) w) ∧
  calc_fitness 1%positive w = Individual_calc_fitness 1%positive w ∧
  (sum fs = Individual_target → f = 1%Qc) ∧
  (f ≤ 1)%Qc ∧
  (Individual_target < d → (f < 0)%Qc).
Proof.
  split; [vm_compute; reflexivity|].
  apply (proj1 (calc_fitness_value world_one_bound 1%positive
           (mkIndividual (Some 0) (Some [1; 2; 3; 4; 5]) (Some "[1, 2, 3, 4, 5]") None)
           [1; 2; 3; 4; 5] ltac:(vm_compute; reflexivity) ltac:(vm_compute; reflexivity))).
  vm_compute. reflexivity.
Defined.

(** C5 fails as worded.  The individual of [world_huge] is bound to the
    feature set [[10 ** 400]]: [abs(10 ** 400 - 231)] has no double, the
    division by [float(target)] raises [OverflowError] and no fitness is
    set. *)
Lemma calc_fitness_overflows :
  _feature_set (object_at world_huge 1%positive) = Some [10 ^ 400] ∧
  Individual_calc_fitness 1%positive world_huge = Raise OverflowError ∧
  ¬ fitness_is_set world_huge 1%positive [10 ^ 400].
Proof.
  assert (Hraise : Individual_calc_fitness 1%positive world_huge = Raise OverflowError)
    by (vm_compute; reflexivity).
  split_and!.
  - vm_compute. reflexivity.
  - exact Hraise.
  - intros (w' & Hrun & _). rewrite Hraise in Hrun. discriminate.
Qed.

Lemma get_part_hist_spec_witness :
  ∃ hist, get_part_hist world_three = Ok (hist, world_three) ∧
    (∀ b, b ∈ hist.*1 ↔
       ∃ k l f, members world_three !! k = Some l ∧ fitness_at world_three l = Some f ∧
                rounds_to 3 f b) ∧
    (∀ b c, (b, c) ∈ hist →
       ∃ ls, NoDup ls ∧
             (∀ l, l ∈ ls ↔
                is_member world_three l ∧
                ∃ f, fitness_at world_three l = Some f ∧ rounds_to 3 f b) ∧
             c = Z.of_nat (length ls)) ∧
    bins_descending hist ∧
    total hist = Z.of_nat (size (members world_three)).
Proof.
  apply (get_part_hist_spec world_three). exact world_three_ok.
Defined.

Lemma get_fitness_cutoff_empty_witness :
  get_fitness_cutoff (Q2Qc (1 # 2)) (new_world 11 0%Qc []) = Raise UnboundLocalError.
Proof.
  apply (get_fitness_cutoff_empty (new_world 11 0%Qc []) (Q2Qc (1 # 2))).
  vm_compute. reflexivity.
Defined.


Lemma world_three_sound : sound world_three.
Proof. apply (bool_decide_unpack _). vm_compute. reflexivity. Defined.



(** C2 fails on the code.  [mutate] on the member [1, 2, 3, 4, 5] of
    [world_two_neighbours] draws position 0 and value 2: it writes 2 into
    the feature set of the member itself, the mutant [2, 2, 3, 4, 5] is a
    duplicate and is rejected, and the member stays in the exact store under
    the key of [1, 2, 3, 4, 5] with the feature set [2, 2, 3, 4, 5]. *)
Lemma mutate_rewrites_member :
  let w := world_two_neighbours in
  let w' := world_after (mutate 1%positive 1) w in
  key (object_at w 1%positive) = Some (unique_key [1; 2; 3; 4; 5]) ∧
  _feature_set (object_at w 1%positive) = Some [1; 2; 3; 4; 5] ∧
  value_of (mutate 1%positive 1 w) = Some tt ∧
  members w' !! unique_key [1; 2; 3; 4; 5] = Some 1%positive ∧
  key (object_at w' 1%positive) = Some (unique_key [1; 2; 3; 4; 5]) ∧
  _feature_set (object_at w' 1%positive) = Some [2; 2; 3; 4; 5] ∧
  unique_key [2; 2; 3; 4; 5] ≠ unique_key [1; 2; 3; 4; 5].
Proof.
  split_and!; try (vm_compute; reflexivity). vm_compute. discriminate.
Qed.

(** ** Runs for the further properties *)

Lemma reify_admits_witness :
  let w := world_one_bound in
  let fs := [1; 2; 3; 4; 5] in
  let k := unique_key fs in
  let o := object_at w 1%positive in
  ∃ w', reify 1%positive w = Ok (true, w') ∧
        members w' = <[k := 1%positive]> (members w) ∧
        size (members w') = S (size (members w)) ∧
        heap w' !! 1%positive = Some (set_fitness (Some (fitness_of fs)) o) ∧
        Individual_calc_fitness 1%positive w
        = Ok (tt, heap_put 1%positive (set_fitness (Some (fitness_of fs)) o) w) ∧
        (∀ l, l ≠ 1%positive → heap w' !! l = heap w !! l) ∧
        seen k w'.
Proof.
  apply (reify_admits world_one_bound 1%positive (object_at world_one_bound 1%positive)
           (unique_key [1; 2; 3; 4; 5]) [1; 2; 3; 4; 5]).
  - vm_compute. reflexivity.
  - vm_compute. reflexivity.
  - vm_compute. reflexivity.
  - vm_compute. reflexivity.
  - unfold seen. vm_compute. discriminate.
  - apply (bool_decide_unpack _). vm_compute. reflexivity.
Defined.

Lemma evict_spec_witness :
  let w := world_three in
  let o := object_at w 1%positive in
  ∃ w', evict 1%positive w = Ok (tt, w') ∧
        heap w' = heap w ∧
        _bf (population w') = _bf (population w) ∧
        (∀ k, key o = Some k →
           members w' = delete k (members w) ∧
           (is_Some (members w !! k) → S (size (members w')) = size (members w))) ∧
        ((∀ k, key o = Some k → members w !! k = None) → w' = w).
Proof.
  apply (evict_spec world_three 1%positive (object_at world_three 1%positive)).
  vm_compute. reflexivity.
Defined.

Lemma seen_key_never_returns_witness :
  let k := unique_key [31; 50; 50; 50; 50] in
  let cs := [call_Individual;
             call_Individual_populate 2%positive 1 [31; 50; 50; 50; 50];
             call_reify 2%positive] in
  let w' := world_after (run_calls cs) world_evicted in
  members w' !! k = None ∧ seen k w'.
Proof.
  apply (seen_key_never_returns world_evicted (unique_key [31; 50; 50; 50; 50])
           [call_Individual;
            call_Individual_populate 2%positive 1 [31; 50; 50; 50; 50];
            call_reify 2%positive]).
  - vm_compute. reflexivity.
  - vm_compute. reflexivity.
  - vm_compute. reflexivity.
Defined.

Lemma mutate_store_witness :
  let w := world_two_neighbours in
  let fs := [1; 2; 3; 4; 5] in
  let k := unique_key fs in
  ∃ w' pos v,
    mutate 1%positive 1 w = Ok (tt, w') ∧
    0 ≤ pos < Z.of_nat (length fs) ∧
    Individual_min ≤ v ≤ Individual_max ∧
    let mfs := sorted (<[Z.to_nat pos := v]> fs) in
    let mutant := fresh_loc w in
    shaped mfs ∧
    Z.abs (sum mfs - Individual_target) < float_limit ∧
    (seen (unique_key mfs) w → members w' = members w) ∧
    (¬ seen (unique_key mfs) w →
       members w' = delete k (<[unique_key mfs := mutant]> (members w)) ∧
       heap w' !! mutant
       = Some (set_fitness (Some (fitness_of mfs)) (new_individual 1 mfs))) ∧
    (members_seen w → is_Some (members w !! k) →
       size (members w') = size (members w)).
Proof.
  apply (mutate_store world_two_neighbours 1%positive 1
           (object_at world_two_neighbours 1%positive)
           (unique_key [1; 2; 3; 4; 5]) [1; 2; 3; 4; 5]).
  - vm_compute. reflexivity.
  - vm_compute. reflexivity.
  - vm_compute. reflexivity.
  - apply (bool_decide_unpack _). vm_compute. reflexivity.
Defined.

Lemma next_generation_size_witness :
  let w := world_three in
  let w' := world_after (next_generation 1 (Q2Qc (1 # 2)) 0%Qc) w in
  ∃ parents w1,
    _select_parents 1 (Q2Qc (1 # 2)) 0%Qc w = Ok (parents, w1) ∧
    (length parents ≤ size (members w))%nat ∧
    (length parents ≤ size (members w'))%nat ∧
    Z.of_nat (size (members w'))
    ≤ Z.max (Z.of_nat (length parents)) (n_pop (population w)).
Proof.
  apply (next_generation_size world_three 1 (Q2Qc (1 # 2)) 0%Qc tt).
  - exact world_three_sound.
  - vm_compute. reflexivity.
Defined.

Lemma Population_populate_spec_witness :
  let w := new_world 3 0%Qc [10; 20; 30; 40; 50; 60; 70]%nat in
  ∃ w', Population_populate 0 w = Ok (tt, w') ∧
        sound w' ∧
        members w ⊆ members w' ∧
        Z.of_nat (size (members w'))
        ≤ Z.of_nat (size (members w)) + Z.max 0 (n_pop (population w)) ∧
        (∀ l o, heap w !! l = Some o → heap w' !! l = Some o) ∧
        (∀ k l, members w' !! k = Some l → members w !! k = None → newborn 0 w' l).
Proof.
  apply (Population_populate_spec 0 (new_world 3 0%Qc [10; 20; 30; 40; 50; 60; 70]%nat)).
  apply (bool_decide_unpack _). vm_compute. reflexivity.
Defined.


Lemma get_fitness_cutoff_zero_n_pop_witness :
  get_fitness_cutoff (Q2Qc (1 # 2)) world_zero_n_pop = Raise ZeroDivisionError.
Proof.
  apply (get_fitness_cutoff_zero_n_pop world_zero_n_pop (Q2Qc (1 # 2))).
  - apply (bool_decide_unpack _). vm_compute. reflexivity.
  - intros H. apply (f_equal size) in H. vm_compute in H. discriminate.
  - vm_compute. reflexivity.
Defined.


Lemma select_parents_without_mutation_witness :
  let w := world_three in
  let cutoff := Q2Qc (1 # 2) in
  ∃ w', _select_parents 1 cutoff 0%Qc w = Ok (values (members w'), w') ∧
        members w'
        = filter (λ kl, fitness_gt (fitness_at w kl.2) cutoff = true) (members w) ∧
        heap w' = heap w ∧
        _bf (population w') = _bf (population w).
Proof.
  apply (select_parents_without_mutation world_three 1 (Q2Qc (1 # 2)) 0%Qc).
  - exact world_three_ok.
  - apply Qcle_refl.
Defined.

Lemma sampled_parents_differ_witness :
  pair_three.1 ≠ pair_three.2 ∧
  ∃ kf km, kf ≠ km ∧
           members world_three_culled !! kf = Some pair_three.1 ∧
           members world_three_culled !! km = Some pair_three.2.
Proof.
  apply (sampled_parents_differ world_three 1 (Q2Qc (1 # 2)) 0%Qc pool_three
           world_three_culled world_three_culled pair_three.1 pair_three.2
           (world_after (sample2 pool_three) world_three_culled)).
  - exact world_three_sound.
  - vm_compute. reflexivity.
  - vm_compute. reflexivity.
Defined.


Lemma fitness_of_features_witness :
  let fs := [100; 100; 100; 100; 100] in
  (Q2Qc (-38 # 231) ≤ fitness_of fs)%Qc ∧
  (fitness_of fs ≤ 1)%Qc ∧
  ((fitness_of fs < 0)%Qc ↔ 2 * Individual_target < sum fs) ∧
  fitness_of (replicate (length fs) Individual_max) = Q2Qc (-38 # 231).
Proof.
  apply (fitness_of_features [100; 100; 100; 100; 100]).
  - reflexivity.
  - apply (bool_decide_unpack _). vm_compute. reflexivity.
Defined.

Lemma json_feature_set_inj_witness :
  sorted [3; 1; 2] = [1; 2; 3].
Proof.
  apply (json_feature_set_inj (sorted [3; 1; 2]) [1; 2; 3]).
  vm_compute. reflexivity.
Defined.

Lemma driver_keeps_shape_witness :
  let w := new_world 3 0%Qc [10; 20; 30; 40; 50; 60; 70]%nat in
  let cs := [call_Population_populate 0; call_test_termination 0;
             call_get_fitness_cutoff (Q2Qc (1 # 2));
             call_next_generation 1 (Q2Qc (1 # 2)) 0%Qc] in
  let w' := world_after (run_calls cs) w in
  (sound w ∧ heap_shaped w ∧ run_calls cs w = Ok (tt, w')) ∧
  ∀ k l, members w' !! k = Some l →
    ∃ o fs, heap w' !! l = Some o ∧ _feature_set o = Some fs ∧
            Z.of_nat (length fs) = Individual_length ∧
            Forall (λ v, Individual_min ≤ v ≤ Individual_max) fs.
Proof.
  split.
  - split_and!.
    + apply (bool_decide_unpack _). vm_compute. reflexivity.
    + apply (bool_decide_unpack _). vm_compute. reflexivity.
    + vm_compute. reflexivity.
  - apply (driver_keeps_shape (new_world 3 0%Qc [10; 20; 30; 40; 50; 60; 70]%nat)
             [call_Population_populate 0; call_test_termination 0;
              call_get_fitness_cutoff (Q2Qc (1 # 2));
              call_next_generation 1 (Q2Qc (1 # 2)) 0%Qc]).
    + apply (bool_decide_unpack _). vm_compute. reflexivity.
    + apply (bool_decide_unpack _). vm_compute. reflexivity.
    + repeat constructor.
    + vm_compute. reflexivity.
Defined.
